(** * cloudcomparer: the table scraper [scrapper.py], embedded and verified

    The development follows the script top-down: Python text and the
    exceptions the script can raise, the regular expression that cleans
    platform names, the parsed HTML tree with the BeautifulSoup queries the
    script uses, the extraction functions, and the [__main__] block that
    writes the CSV file. *)

From Stdlib Require Import NArith Ascii String.
From stdpp Require Import base option list sorting gmap.

Set Warnings "-register-all".

Local Open Scope list_scope.
Local Open Scope nat_scope.

(** ** Python text

    A Python [str] is a sequence of Unicode code points. *)

Definition char : Type := N.
Definition str : Type := list char.

(** A literal of the source, written as a Rocq string. *)
Definition U (s : string) : str :=
  (fix go (s : string) : str :=
     match s with
     | EmptyString => []
     | String a s' => N_of_ascii a :: go s'
     end) s.

Definition newline : char := 10%N.

(** [len(s)] used as a condition: true on a non-empty string. *)
Definition truthy (s : str) : bool :=
  match s with [] => false | _ :: _ => true end.

(** [sep.join(parts)] *)
Fixpoint join (sep : str) (parts : list str) : str :=
  match parts with
  | [] => []
  | [p] => p
  | p :: rest => p ++ sep ++ join sep rest
  end.

(** ** Exceptions and results

    The exceptions of the Python run time that the script can meet, and
    [UserError] for any class a program defines itself.  The script defines
    none and has no [try]: an exception ends the run. *)

Inductive exn : Type :=
| IndexError
| KeyError
| AttributeError
| TypeError
| RequestException
| UserError (cls : string).

Inductive result (A : Type) : Type :=
| Ok (a : A)
| Err (e : exn).
Arguments Ok {A} a.
Arguments Err {A} e.

Definition bind {A B : Type} (m : result A) (f : A -> result B) : result B :=
  match m with
  | Ok a => f a
  | Err e => Err e
  end.

Notation "x <- m ;; k" := (bind m (fun x => k))
  (at level 100, m at next level, right associativity).

(** [l[i]] on a Python list, for an index that is not negative. *)
Definition getitem {A : Type} (l : list A) (i : nat) : result A :=
  match l !! i with
  | Some x => Ok x
  | None => Err IndexError
  end.

(** [d[k]] on a Python dict. *)
Definition getkey (d : gmap str str) (k : str) : result str :=
  match d !! k with
  | Some v => Ok v
  | None => Err KeyError
  end.

(** A list comprehension whose element expression can raise. *)
Fixpoint comprehension {A B : Type} (f : A -> result B) (l : list A)
  : result (list B) :=
  match l with
  | [] => Ok []
  | x :: l' => y <- f x ;; ys <- comprehension f l' ;; Ok (y :: ys)
  end.

(** A [for] loop whose body updates the loop state and can raise. *)
Fixpoint for_each {A S : Type} (body : S -> A -> result S) (l : list A)
    (st : S) : result S :=
  match l with
  | [] => Ok st
  | x :: l' => st' <- body st x ;; for_each body l' st'
  end.

(** [enumerate(l, start)] and [enumerate(l)] *)
Fixpoint enumerate_from {A : Type} (start : nat) (l : list A)
  : list (nat * A) :=
  match l with
  | [] => []
  | x :: l' => (start, x) :: enumerate_from (S start) l'
  end.

Definition enumerate {A : Type} (l : list A) : list (nat * A) :=
  enumerate_from 0 l.

(** ** Regular expressions

    The fragment of Python's [re] syntax that [_platform_name_re] uses, with
    the backtracking semantics of the [re] module on a [str] pattern with no
    flags: alternatives are tried left to right, repetition is greedy. *)

Module Re.

Inductive regex : Type :=
| Any                          (* [.]  any character except a newline *)
| Space                        (* [\s] Unicode whitespace *)
| Lit (c : char)
| Eps                          (* the empty pattern *)
| Seq (r1 r2 : regex)
| Alt (r1 r2 : regex)
| Rep (min : nat) (r : regex)  (* [r*] is [Rep 0 r], [r+] is [Rep 1 r] *)
| Group (i : nat) (r : regex)
| AtEnd.                       (* [$] *)

(** The characters [str.isspace] accepts, which is what [\s] matches. *)
Definition is_space (c : char) : bool :=
  ((9 <=? c) && (c <=? 13) || (28 <=? c) && (c <=? 32)
   || (c =? 133) || (c =? 160) || (c =? 5760)
   || (8192 <=? c) && (c <=? 8202)
   || (c =? 8232) || (c =? 8233) || (c =? 8239) || (c =? 8287)
   || (c =? 12288))%N.

Definition is_linebreak (c : char) : bool := (c =? newline)%N.

(** The groups matched so far, by number. *)
Abbreviation groups := (gmap nat str) (only parsing).

(** Continuation of a match: the text still to read and the groups. *)
Definition cont : Type := str -> groups -> option groups.

(** What was read between the text [s] and its suffix [s']. *)
Definition consumed (s s' : str) : str := take (length s - length s') s.

(** Greedy repetition: one more round of [body] is tried first, as long as
    it reads something; when that fails and [count] rounds suffice, the
    rest of the pattern is tried. *)
Fixpoint rep_loop (body : str -> groups -> cont -> option groups)
    (min fuel count : nat) (s : str) (g : groups) (k : cont)
  : option groups :=
  let more :=
    match fuel with
    | O => None
    | S fuel' =>
        body s g (fun s' g' =>
          if length s' <? length s
          then rep_loop body min fuel' (S count) s' g' k
          else None)
    end in
  match more with
  | Some m => Some m
  | None => if min <=? count then k s g else None
  end.

Fixpoint bt (r : regex) (s : str) (g : groups) (k : cont) : option groups :=
  match r with
  | Any =>
      match s with
      | c :: s' => if is_linebreak c then None else k s' g
      | [] => None
      end
  | Space =>
      match s with
      | c :: s' => if is_space c then k s' g else None
      | [] => None
      end
  | Lit c0 =>
      match s with
      | c :: s' => if (c =? c0)%N then k s' g else None
      | [] => None
      end
  | Eps => k s g
  | Seq r1 r2 => bt r1 s g (fun s' g' => bt r2 s' g' k)
  | Alt r1 r2 =>
      match bt r1 s g k with
      | Some m => Some m
      | None => bt r2 s g k
      end
  | Rep min r' => rep_loop (bt r') min (length s) 0 s g k
  | Group i r' => bt r' s g (fun s' g' => k s' (<[i := consumed s s']> g'))
  | AtEnd =>
      match s with
      | [] => k s g
      | [c] => if is_linebreak c then k s g else None
      | _ => None
      end
  end.

(** The literal text [w] as a pattern. *)
Fixpoint lit (w : str) : regex :=
  match w with
  | [] => Eps
  | c :: w' => Seq (Lit c) (lit w')
  end.

(** [re.match(r, s)]: the pattern is tried at the start of [s] and need
    not reach its end. *)
Definition re_match (r : regex) (s : str) : option groups :=
  bt r s ∅ (fun _ g => Some g).

(** [m.group(i)] for a group that took part in the match. *)
Definition group (m : groups) (i : nat) : str :=
  match m !! i with
  | Some t => t
  | None => []
  end.

(** The ways a pattern can read the start of a text, with no order among
    them: [Matches r s g s' g'] when [r] can read [s] down to its suffix
    [s'] and take the groups from [g] to [g'].  A repetition counts the
    rounds it still owes and every round reads something. *)
Inductive Matches : regex -> str -> groups -> str -> groups -> Prop :=
| M_Any c s g :
    is_linebreak c = false -> Matches Any (c :: s) g s g
| M_Space c s g :
    is_space c = true -> Matches Space (c :: s) g s g
| M_Lit c s g :
    Matches (Lit c) (c :: s) g s g
| M_Eps s g :
    Matches Eps s g s g
| M_Seq r1 r2 s g s1 g1 s2 g2 :
    Matches r1 s g s1 g1 -> Matches r2 s1 g1 s2 g2 ->
    Matches (Seq r1 r2) s g s2 g2
| M_Alt_l r1 r2 s g s' g' :
    Matches r1 s g s' g' -> Matches (Alt r1 r2) s g s' g'
| M_Alt_r r1 r2 s g s' g' :
    Matches r2 s g s' g' -> Matches (Alt r1 r2) s g s' g'
| M_Rep_stop r s g :
    Matches (Rep 0 r) s g s g
| M_Rep_round min r s g s1 g1 s2 g2 :
    Matches r s g s1 g1 -> length s1 < length s ->
    Matches (Rep (pred min) r) s1 g1 s2 g2 ->
    Matches (Rep min r) s g s2 g2
| M_Group i r s g s' g' :
    Matches r s g s' g' ->
    Matches (Group i r) s g s' (<[i := consumed s s']> g')
| M_AtEnd s g :
    s = [] \/ s = [newline] -> Matches AtEnd s g s g.

End Re.

(** Regex to extract the platforms names out of img tags' "alt" attribute.
    Group 1 is any run of characters, greedy; group 2 is one or more
    whitespace characters, then group 3, one of the words Icon, Log, Logo,
    then the end-of-string anchor. *)
Definition _platform_name_re : Re.regex :=
  Re.Seq (Re.Group 1 (Re.Rep 0 Re.Any))
    (Re.Group 2
       (Re.Seq (Re.Rep 1 Re.Space)
          (Re.Seq
             (Re.Group 3
                (Re.Alt (Re.lit (U "Icon"))
                   (Re.Alt (Re.lit (U "Log")) (Re.lit (U "Logo")))))
             Re.AtEnd))).

(** Extracts the platform name out of an img tag's alt attribute *)
Definition get_platform_name (alt_desc : str) : str :=
  match Re.re_match _platform_name_re alt_desc with
  | Some n => Re.group n 1
  | None => alt_desc
  end.

(** ** The parsed page

    What BeautifulSoup builds: tags with a name, an attribute dict and
    children, and the strings between them. *)

Inductive node : Type :=
| NavigableString (s : str)
| Tag (name : str) (attrs : gmap str str) (contents : list node).

(** [tag.descendants]: every node below [n], in document order. *)
Fixpoint descendants (n : node) : list node :=
  match n with
  | NavigableString _ => []
  | Tag _ _ contents =>
      (fix go (l : list node) : list node :=
         match l with
         | [] => []
         | c :: l' => c :: descendants c ++ go l'
         end) contents
  end.

(** [tag.text]: the strings below [n], joined. *)
Fixpoint text (n : node) : str :=
  match n with
  | NavigableString s => s
  | Tag _ _ contents =>
      (fix go (l : list node) : str :=
         match l with
         | [] => []
         | c :: l' => text c ++ go l'
         end) contents
  end.

(** Whether [n] is a tag called [name] that carries every attribute of
    [attrs] with the given value. *)
Definition matches (name : str) (attrs : list (str * str)) (n : node) : bool :=
  match n with
  | NavigableString _ => false
  | Tag name' attrs' _ =>
      bool_decide (name' = name)
      && forallb (fun kv => bool_decide (attrs' !! kv.1 = Some kv.2)) attrs
  end.

(** [tag.find_all(name)] *)
Definition find_all (name : str) (n : node) : list node :=
  filter (fun d => matches name [] d = true) (descendants n).

(** [tag.find(name, attrs)]: the first match, or [None]. *)
Definition find (name : str) (attrs : list (str * str)) (n : node)
  : option node :=
  head (filter (fun d => matches name attrs d = true) (descendants n)).

(** [tag[key]] with a string [key]: the attribute of a tag; a
    [NavigableString] is a [str] and takes no string as subscript. *)
Definition tag_getitem (n : node) (key : str) : result str :=
  match n with
  | NavigableString _ => Err TypeError
  | Tag _ attrs _ => getkey attrs key
  end.

(** ** The script *)

(** Model for a solution definition. *)
Record Solution : Type := mkSolution {
  category : str;
  service : str;
  platform : str;
  name : str;
  description : str
}.

(** [Solution.__str__] defines how a solution is written on the output
    file. *)
Definition Solution_str (self : Solution) : str :=
  category self ++ U "," ++ service self ++ U "," ++ platform self
  ++ U "," ++ name self ++ U "," ++ description self.

(** Parses the platforms names at the header of the table and returns them
    as a list *)
Definition get_table_headers (rows : list node) : result (list str) :=
  first_row <- getitem rows 0 ;;
  let img_tags := find_all (U "img") first_row in
  comprehension
    (fun img_tag => alt <- tag_getitem img_tag (U "alt") ;;
                    Ok (get_platform_name alt))
    img_tags.

(** The body of the innermost loop of [get_table_data]: one hyperlink. *)
Definition link_body (ordered_platforms_names : list str)
    (category service : str) (i : nat)
    (all_solutions : list Solution) (unparsed_solution : node)
  : result (list Solution) :=
  if truthy (text unparsed_solution) then
    p <- getitem ordered_platforms_names i ;;
    d <- tag_getitem unparsed_solution (U "href") ;;
    let parsed_solution :=
      {| category := category; service := service; platform := p;
         name := text unparsed_solution; description := d |} in
    Ok (all_solutions ++ [parsed_solution])
  else Ok all_solutions.

(** The body of the loop over the platform columns of one row. *)
Definition column_body (ordered_platforms_names : list str)
    (category service : str)
    (all_solutions : list Solution) (ic : nat * node)
  : result (list Solution) :=
  let unparsed_solutions := find_all (U "a") ic.2 in
  for_each (link_body ordered_platforms_names category service ic.1)
    unparsed_solutions all_solutions.

(** The body of the loop over the data rows. *)
Definition row_body (ordered_platforms_names : list str)
    (all_solutions : list Solution) (row : node)
  : result (list Solution) :=
  let columns := find_all (U "td") row in
  c0 <- getitem columns 0 ;;
  let category := text c0 in
  c1 <- getitem columns 1 ;;
  let service := text c1 in
  let columns := drop 2 columns in
  for_each (column_body ordered_platforms_names category service)
    (enumerate columns) all_solutions.

(** Returns a list with all the parsed solutions from the rows *)
Definition get_table_data (rows : list node) : result (list Solution) :=
  ordered_platforms_names <- get_table_headers rows ;;
  let rows := drop 1 rows in
  for_each (row_body ordered_platforms_names) rows [].

(** The files of the working directory, by path. *)
Abbreviation files := (gmap str str) (only parsing).

(** [open(path, 'w')]: the file is created, or emptied if it exists.
    A file that cannot be opened, and text that cannot be encoded when
    it is written, are not described. *)
Definition open_w (path : str) (fs : files) : files := <[path := []]> fs.

(** [f.write(data)] on the file opened at [path]. *)
Definition write (path data : str) (fs : files) : files :=
  alter (fun old => old ++ data) path fs.

Section Run.

(** [requests.get(url).content], which raises when the request fails,
    and the tree that BeautifulSoup builds with ['html.parser'].  A page
    on which the parser itself raises is not described. *)
Variable requests_get : str -> result (list Byte.byte).
Variable bs : list Byte.byte -> node.

(** Extracts every row out of the table and returns them as a list *)
Definition get_table_rows (webpage : str) : result (list node) :=
  page <- requests_get webpage ;;
  let bspage := bs page in
  match find (U "table") [(U "id", U "comparison")] bspage with
  | None => Err AttributeError
  | Some table => Ok (find_all (U "tr") table)
  end.

(** Parses the table from the webpage and returns a list with all the
    cloud solutions found *)
Definition get_all_solutions (webpage : str) : result (list Solution) :=
  table_rows <- get_table_rows webpage ;;
  get_table_data table_rows.

(** The [__main__] block, run on the files [fs]: the outcome of the run
    and the files it leaves. *)
Definition main (fs : files) : result unit * files :=
  let webpage := U "https://comparecloud.in/" in
  let output_file := U "./clouds.csv" in
  match get_all_solutions webpage with
  | Err e => (Err e, fs)
  | Ok solutions =>
      let csv_headers :=
        [U "Category"; U "Service"; U "Platform"; U "Solution";
         U "Description"] in
      let csv_content := join [newline] (map Solution_str solutions) in
      let fs := open_w output_file fs in
      let fs := write output_file (join (U ",") csv_headers) fs in
      let fs := write output_file [newline] fs in
      let fs := write output_file csv_content fs in
      (Ok tt, fs)
  end.

End Run.

(** ** Vocabulary of the statements *)

(** The classified failure that descriptions of the script speak of.  The
    script defines no such class and raises it nowhere. *)
Definition StructureError : exn := UserError "StructureError".

(** The faults the Python run time raises by itself on a bad index or a
    missing key. *)
Definition raw_fault (e : exn) : Prop := e = IndexError \/ e = KeyError.

(** The rows after the header row, the cells of a row after the first two,
    the hyperlinks of a cell, and whether a hyperlink shows some text. *)
Definition data_rows (rows : list node) : list node := drop 1 rows.
Definition cells (row : node) : list node := find_all (U "td") row.
Definition platform_columns (row : node) : list node := drop 2 (cells row).
Definition links (column : node) : list node := find_all (U "a") column.
Definition has_text (a : node) : bool := truthy (text a).


(** Where a hyperlink sits: index of the data row, index of the platform
    column in the row, index of the hyperlink in the cell. *)
Definition position : Type := nat * nat * nat.

Definition lex_lt (p q : position) : Prop :=
  p.1.1 < q.1.1
  \/ (p.1.1 = q.1.1
      /\ (p.1.2 < q.1.2 \/ (p.1.2 = q.1.2 /\ p.2 < q.2))).

Definition link_positions (ri ci : nat) (column : node) : list position :=
  map (fun la : nat * node => (ri, ci, la.1))
    (filter (fun la : nat * node => has_text la.2 = true)
       (enumerate (links column))).

Definition row_positions (ri : nat) (row : node) : list position :=
  flat_map (fun ic : nat * node => link_positions ri ic.1 ic.2)
    (enumerate (platform_columns row)).

(** The positions of the hyperlinks with visible text, row by row, column
    by column, in document order inside a cell. *)
Definition positions (rows : list node) : list position :=
  flat_map (fun ir : nat * node => row_positions ir.1 ir.2)
    (enumerate (data_rows rows)).

(** [emitted rows names rec p]: the record [rec] is the one built from the
    hyperlink at position [p] of the table [rows], with the platform name
    that [names] has at the index of the column. *)
Definition emitted (rows : list node) (names : list str) (rec : Solution)
    (p : position) : Prop :=
  exists row c0 c1 column a pl d,
    data_rows rows !! p.1.1 = Some row
    /\ cells row !! 0 = Some c0
    /\ cells row !! 1 = Some c1
    /\ platform_columns row !! p.1.2 = Some column
    /\ links column !! p.2 = Some a
    /\ has_text a = true
    /\ names !! p.1.2 = Some pl
    /\ tag_getitem a (U "href") = Ok d
    /\ rec = {| category := text c0; service := text c1; platform := pl;
                name := text a; description := d |}.

(** A table on which no subscript of [get_table_data] can fail: there is
    a header row, its images have an alt text, every data row has two
    cells or more, and every hyperlink with visible text in a platform
    column has an href and sits in a column that has a header image. *)
Definition well_formed (rows : list node) : Prop :=
  exists header,
    rows !! 0 = Some header
    /\ Forall (fun img => exists alt, tag_getitem img (U "alt") = Ok alt)
         (find_all (U "img") header)
    /\ Forall
         (fun row =>
            2 <= length (cells row)
            /\ forall ci column a,
                 platform_columns row !! ci = Some column ->
                 a ∈ links column -> has_text a = true ->
                 ci < length (find_all (U "img") header)
                 /\ exists d, tag_getitem a (U "href") = Ok d)
         (data_rows rows).

(** The same hyperlinks, each with its row, its column and itself next to
    the three indices. *)
Definition hit : Type := (nat * node) * (nat * node) * (nat * node).

Definition link_hits (column : node) : list (nat * node) :=
  filter (fun la : nat * node => has_text la.2 = true)
    (enumerate (links column)).

Definition column_hits (ics : list (nat * node))
  : list ((nat * node) * (nat * node)) :=
  flat_map (fun ic => map (fun la => (ic, la)) (link_hits ic.2)) ics.

Definition row_hits (ir : nat * node) : list hit :=
  map (fun h => (ir, h.1, h.2))
    (column_hits (enumerate (platform_columns ir.2))).

Definition hits (rows : list node) : list hit :=
  flat_map row_hits (enumerate (data_rows rows)).

Definition hit_position (h : hit) : position := (h.1.1.1, h.1.2.1, h.2.1).

(** The record built from a hyperlink [a] of column [ci] in a row whose
    first two cells read [cat] and [svc]. *)
Definition built (names : list str) (cat svc : str) (ci : nat) (a : node)
    (rec : Solution) : Prop :=
  has_text a = true
  /\ exists pl d,
      names !! ci = Some pl
      /\ tag_getitem a (U "href") = Ok d
      /\ rec = {| category := cat; service := svc; platform := pl;
                  name := text a; description := d |}.

(** ** Sample tables *)

Definition td (s : string) : node :=
  Tag (U "td") ∅ [NavigableString (U s)].

(** A header row with one image, alt text "AWS Icon". *)
Definition aws_header : node :=
  Tag (U "tr") ∅
    [Tag (U "th") ∅ [Tag (U "img") {[ U "alt" := U "AWS Icon" ]} []]].

(** The data row Compute, VM and one cell with the hyperlink EC2 to
    http://x. *)
Definition aws_row : node :=
  Tag (U "tr") ∅
    [td "Compute"; td "VM";
     Tag (U "td") ∅
       [Tag (U "a") {[ U "href" := U "http://x" ]}
          [NavigableString (U "EC2")]]].

Definition aws_table : node :=
  Tag (U "table") {[ U "id" := U "comparison" ]} [aws_header; aws_row].

Definition aws_page : node := Tag (U "[document]") ∅ [aws_table].

Definition a_href (href txt : string) : node :=
  Tag (U "a") {[ U "href" := U href ]} [NavigableString (U txt)].

(** Two platforms and two data rows; the first platform cell of the first
    row has a hyperlink with text and one without, the last cell of the
    second row has no hyperlink. *)
Definition two_platform_rows : list node :=
  [Tag (U "tr") ∅
     [Tag (U "th") ∅ [Tag (U "img") {[ U "alt" := U "AWS Icon" ]} []];
      Tag (U "th") ∅ [Tag (U "img") {[ U "alt" := U "Azure Logo" ]} []]];
   Tag (U "tr") ∅
     [td "Compute"; td "VM";
      Tag (U "td") ∅
        [a_href "http://ec2" "EC2";
         Tag (U "a") {[ U "href" := U "http://none" ]} []];
      Tag (U "td") ∅ [a_href "http://vms" "VMs"]];
   Tag (U "tr") ∅
     [td "Storage"; td "Object";
      Tag (U "td") ∅ [a_href "http://s3" "S3"];
      Tag (U "td") ∅ []]].

(** A data row with a single cell. *)
Definition short_row : node := Tag (U "tr") ∅ [td "Compute"].

(** A data row whose hyperlink has text and no href. *)
Definition bare_link : node := Tag (U "a") ∅ [NavigableString (U "EC2")].
Definition bare_link_row : node :=
  Tag (U "tr") ∅ [td "Compute"; td "VM"; Tag (U "td") ∅ [bare_link]].

(** A data row with the two label cells only. *)
Definition label_row : node := Tag (U "tr") ∅ [td "Compute"; td "VM"].

(** A page whose only table has another id, and a page whose comparison
    table has no row. *)
Definition other_page : node :=
  Tag (U "[document]") ∅
    [Tag (U "table") {[ U "id" := U "prices" ]} [aws_header; aws_row]].
Definition empty_page : node :=
  Tag (U "[document]") ∅ [Tag (U "table") {[ U "id" := U "comparison" ]} []].

(** The words that end an alt text. *)
Definition words : list str := [U "Icon"; U "Log"; U "Logo"].

(** The text [s] has no newline. *)
Definition one_line (s : str) : Prop := Forall (fun c => c <> newline) s.

(** The text [s] is whitespace only. *)
Definition blank (s : str) : Prop := Forall (fun c => Re.is_space c = true) s.

(** The text [s] does not end in whitespace. *)
Definition trimmed (s : str) : Prop :=
  forall c, last s = Some c -> Re.is_space c = false.

(** The second group of [_platform_name_re] and what follows it: the
    whitespace, the word and the end of the text. *)
Definition word_tail : Re.regex :=
  Re.Group 2
    (Re.Seq (Re.Rep 1 Re.Space)
       (Re.Seq
          (Re.Group 3
             (Re.Alt (Re.lit (U "Icon"))
                (Re.Alt (Re.lit (U "Log")) (Re.lit (U "Logo")))))
          Re.AtEnd)).

(** The text [r] is a run of whitespace, one of the words and then the
    end of the text, before which one newline may stand. *)
Definition ends_name (r : str) : Prop :=
  exists ws w tl,
    r = ws ++ w ++ tl /\ ws <> [] /\ blank ws /\ w ∈ words
    /\ (tl = [] \/ tl = [newline]).

(** The whitespace [ws] that follows a name cannot lose a character to
    the name: it is one character, or it starts with a newline. *)
Definition tight (ws : str) : Prop :=
  length ws = 1 \/ head ws = Some newline.

(** ** Vocabulary of the further properties *)

Definition comma : char := 44%N.

(** The text [s] has no comma. *)
Definition comma_free (s : str) : Prop := Forall (fun c => c <> comma) s.

(** What a successful run leaves in the output file for the records
    [solutions]: the header line, a newline, and the lines of the records
    with a newline between them. *)
Definition csv_text (solutions : list Solution) : str :=
  U "Category,Service,Platform,Solution,Description" ++ [newline]
  ++ join [newline] (map Solution_str solutions).

(** A tag called [nm]. *)
Definition tag_named (nm : str) (n : node) : Prop :=
  exists attrs contents, n = Tag nm attrs contents.

(** A header row without image. *)
Definition plain_header : node :=
  Tag (U "tr") ∅ [Tag (U "th") ∅ [NavigableString (U "Platform")]].

(** Induction on a node with the property known of all its children. *)
Fixpoint node_induction (P : node -> Prop)
    (Hs : forall s, P (NavigableString s))
    (Ht : forall nm attrs contents,
        Forall P contents -> P (Tag nm attrs contents))
    (n : node) : P n :=
  match n with
  | NavigableString s => Hs s
  | Tag nm attrs contents =>
      Ht nm attrs contents
        ((fix go (l : list node) : Forall P l :=
            match l with
            | [] => @List.Forall_nil node P
            | c :: l' =>
                @List.Forall_cons node P c l'
                  (node_induction P Hs Ht c) (go l')
            end) contents)
  end.

(** *** Hyperlinks counted once *)













(** A page whose comparison table has the header row only. *)
Definition empty_header_page : node :=
  Tag (U "[document]") ∅
    [Tag (U "table") {[ U "id" := U "comparison" ]} [aws_header]].

(** A header image without alt text, in a header row. *)
Definition bare_img_header : node :=
  Tag (U "tr") ∅ [Tag (U "th") ∅ [Tag (U "img") ∅ []]].

(** ** The matcher against the declarative reading of patterns *)

Section ReFacts.

Import Re.

Lemma rep_loop_sound (body : str -> groups -> cont -> option groups)
    (r : regex) (min : nat) (k : cont) (m : gmap nat str) :
  (forall s g k' m',
     body s g k' = Some m' ->
     exists s' g', Matches r s g s' g' /\ k' s' g' = Some m') ->
  forall fuel count s g,
    rep_loop body min fuel count s g k = Some m ->
    exists s' g', Matches (Rep (min - count) r) s g s' g' /\ k s' g' = Some m.
Proof.
  intros Hbody. induction fuel as [|fuel IH]; intros count s g; simpl.
  - destruct (min <=? count) eqn:E; [|discriminate]. intros Hk.
    apply Nat.leb_le in E. replace (min - count) with 0 by lia.
    exists s, g. split; [constructor|done].
  - destruct (body s g _) as [m'|] eqn:Hmore.
    + intros [= ->]. apply Hbody in Hmore as (s1 & g1 & Hr & Hk1).
      destruct (length s1 <? length s) eqn:Hlt; [|discriminate].
      apply Nat.ltb_lt in Hlt.
      apply IH in Hk1 as (s2 & g2 & Hrep & Hk2). exists s2, g2.
      split; [|done]. eapply M_Rep_round; [exact Hr|exact Hlt|].
      by replace (pred (min - count)) with (min - S count) by lia.
    + destruct (min <=? count) eqn:E; [|discriminate]. intros Hk.
      apply Nat.leb_le in E. replace (min - count) with 0 by lia.
      exists s, g. split; [constructor|done].
Qed.

(** What the matcher returns comes from one way of reading the text. *)
Lemma bt_sound (r : regex) :
  forall s g k m,
    bt r s g k = Some m ->
    exists s' g', Matches r s g s' g' /\ k s' g' = Some m.
Proof.
  induction r as [| |c| |r1 IH1 r2 IH2|r1 IH1 r2 IH2|min r IH|i r IH|];
    intros s g k m; simpl.
  - destruct s as [|c s]; [discriminate|].
    destruct (is_linebreak c) eqn:E; [discriminate|].
    intros Hk. exists s, g. split; [by constructor|done].
  - destruct s as [|c s]; [discriminate|].
    destruct (is_space c) eqn:E; [|discriminate].
    intros Hk. exists s, g. split; [by constructor|done].
  - destruct s as [|c' s]; [discriminate|].
    destruct (c' =? c)%N eqn:E; [|discriminate].
    apply N.eqb_eq in E as ->.
    intros Hk. exists s, g. split; [by constructor|done].
  - intros Hk. exists s, g. split; [constructor|done].
  - intros (s1 & g1 & H1 & H)%IH1. apply IH2 in H as (s2 & g2 & H2 & Hk).
    exists s2, g2. split; [by econstructor|done].
  - destruct (bt r1 s g k) as [m'|] eqn:E1.
    + intros [= ->]. apply IH1 in E1 as (s' & g' & H1 & Hk).
      exists s', g'. split; [by apply M_Alt_l|done].
    + intros (s' & g' & H2 & Hk)%IH2.
      exists s', g'. split; [by apply M_Alt_r|done].
  - intros H. apply (rep_loop_sound _ r) in H; [|exact IH].
    by rewrite Nat.sub_0_r in H.
  - intros (s' & g' & H & Hk)%IH. eexists _, _.
    split; [by apply M_Group|done].
  - destruct s as [|c [|c' s]]; [| |discriminate].
    + intros Hk. exists [], g. split; [constructor; auto|done].
    + destruct (is_linebreak c) eqn:E; [|discriminate].
      apply N.eqb_eq in E as ->.
      intros Hk. exists [newline], g. split; [constructor; auto|done].
Qed.

Lemma rep_loop_complete (body : str -> groups -> cont -> option groups)
    (r : regex) (min : nat) (k : cont) :
  (forall s g s' g' k',
     Matches r s g s' g' -> is_Some (k' s' g') -> is_Some (body s g k')) ->
  forall fuel count s g s' g',
    length s <= fuel ->
    Matches (Rep (min - count) r) s g s' g' ->
    is_Some (k s' g') ->
    is_Some (rep_loop body min fuel count s g k).
Proof.
  intros Hbody. induction fuel as [|fuel IH];
    intros count s g s' g' Hfuel HM Hk.
  - inversion HM as [| | | | | | |r0 s0 g0 E|n r0 s0 g0 s1 g1 s2 g2 H1 Hlt H2|
                     |]; subst.
    + simpl. assert ((min <=? count) = true) as -> by (apply Nat.leb_le; lia).
      done.
    + lia.
  - simpl.
    inversion HM as [| | | | | | |r0 s0 g0 E|n r0 s0 g0 s1 g1 s2 g2 H1 Hlt H2|
                     |]; subst.
    + destruct (body s' g' _) as [m'|]; [done|].
      assert ((min <=? count) = true) as -> by (apply Nat.leb_le; lia).
      done.
    + match goal with |- is_Some (match ?b with _ => _ end) =>
        assert (is_Some b) as [m' ->]; [|done] end.
      eapply Hbody; [exact H1|].
      assert ((length s1 <? length s) = true) as -> by (apply Nat.ltb_lt; lia).
      eapply IH; [lia| |exact Hk].
      by replace (min - S count) with (pred (min - count)) by lia.
Qed.

(** Every way of reading the text that the rest of the pattern accepts
    makes the matcher return some match. *)
Lemma bt_complete (r : regex) :
  forall s g s' g' k,
    Matches r s g s' g' -> is_Some (k s' g') -> is_Some (bt r s g k).
Proof.
  induction r as [| |c| |r1 IH1 r2 IH2|r1 IH1 r2 IH2|min r IH|i r IH|];
    intros s g s' g' k HM Hk; simpl.
  - inversion HM as [c0 s0 g0 E| | | | | | | | | |]; subst. by rewrite E.
  - inversion HM as [|c0 s0 g0 E| | | | | | | | |]; subst. by rewrite E.
  - inversion HM; subst. by rewrite N.eqb_refl.
  - by inversion HM; subst.
  - inversion HM as [| | | |? ? ? ? s1 g1 ? ? H1 H2| | | | | |]; subst.
    eapply IH1; [exact H1|]. eapply IH2; [exact H2|done].
  - destruct (bt r1 s g k) as [m'|] eqn:E1; [done|].
    inversion HM as [| | | | |? ? ? ? ? ? H1|? ? ? ? ? ? H2| | | |]; subst.
    + destruct (IH1 _ _ _ _ k H1 Hk) as [m' Hm']. congruence.
    + by eapply IH2.
  - eapply (rep_loop_complete _ r); [exact IH|done| |exact Hk].
    by rewrite Nat.sub_0_r.
  - inversion HM as [| | | | | | | | |? ? ? ? ? g1 H1|]; subst.
    by eapply IH.
  - inversion HM as [| | | | | | | | | |? ? [E|E]]; subst; [done|].
    unfold is_linebreak. by rewrite N.eqb_refl.
Qed.

Lemma rep_loop_S (body : str -> groups -> cont -> option groups)
    (min fuel count : nat) (s : str) (g : gmap nat str) (k : cont) :
  rep_loop body min (S fuel) count s g k
  = match
      body s g (fun s' g' =>
        if length s' <? length s
        then rep_loop body min fuel (S count) s' g' k
        else None)
    with
    | Some m => Some m
    | None => if min <=? count then k s g else None
    end.
Proof. reflexivity. Qed.

Lemma bt_Any_cons (c : char) (s : str) (g : gmap nat str) (k : cont) :
  bt Any (c :: s) g k = if is_linebreak c then None else k s g.
Proof. reflexivity. Qed.

(** The greedy star of [.]: the rest of the pattern is tried after the
    longest run without newline first, then after shorter and shorter
    ones, and the first success is the result. *)
Lemma rep_any_greedy (k : cont) :
  forall s fuel count g,
    length s <= fuel ->
    match rep_loop (bt Any) 0 fuel count s g k with
    | Some m =>
        exists p r,
          s = p ++ r /\ one_line p /\ k r g = Some m
          /\ forall p' r',
               s = p' ++ r' -> one_line p' -> length p < length p' ->
               k r' g = None
    | None => forall p r, s = p ++ r -> one_line p -> k r g = None
    end.
Proof.
  induction s as [|c s IH]; intros fuel count g Hfuel.
  - assert (rep_loop (bt Any) 0 fuel count [] g k = k [] g) as ->
      by (by destruct fuel).
    destruct (k [] g) as [m|] eqn:Hk.
    + exists [], []. split_and!; [done|constructor|done|].
      intros p' r' Hs _ Hlen. symmetry in Hs.
      apply app_eq_nil in Hs as [-> _]. simpl in Hlen. lia.
    + intros p r Hs _. symmetry in Hs. by apply app_eq_nil in Hs as [_ ->].
  - destruct fuel as [|fuel]; [simpl in Hfuel; lia|].
    rewrite rep_loop_S, bt_Any_cons. destruct (is_linebreak c) eqn:Hc.
    + cbn [Nat.leb]. apply N.eqb_eq in Hc as ->.
      destruct (k (newline :: s) g) as [m|] eqn:Hk.
      * exists [], (newline :: s). split_and!; [done|constructor|done|].
        intros [|c' p'] r' Hs Hline Hlen; [simpl in Hlen; lia|].
        injection Hs as <- _. by apply Forall_cons in Hline as [? _].
      * intros [|c' p'] r Hs Hline; [by simpl in Hs; subst|].
        injection Hs as <- _. by apply Forall_cons in Hline as [? _].
    + assert ((length s <? length (c :: s)) = true) as ->
        by (apply Nat.ltb_lt; simpl; lia).
      assert (c <> newline) as Hc' by (by apply N.eqb_neq).
      specialize (IH fuel (S count) g ltac:(simpl in Hfuel; lia)).
      destruct (rep_loop (bt Any) 0 fuel (S count) s g k) as [m|].
      * destruct IH as (p & r & -> & Hline & Hk & Hmax).
        exists (c :: p), r. split_and!; [done|by constructor|done|].
        intros [|c' p'] r' Hs Hline' Hlen; [simpl in Hlen; lia|].
        injection Hs as <- Hs. apply Forall_cons in Hline' as [_ Hline'].
        apply (Hmax p' r' Hs Hline'). simpl in Hlen. lia.
      * cbn [Nat.leb]. destruct (k (c :: s) g) as [m|] eqn:Hk.
        -- exists [], (c :: s). split_and!; [done|constructor|done|].
           intros [|c' p'] r' Hs Hline' Hlen; [simpl in Hlen; lia|].
           injection Hs as <- Hs. apply Forall_cons in Hline' as [_ Hline'].
           by apply (IH p' r').
        -- intros [|c' p'] r Hs Hline'; [by simpl in Hs; subst|].
           injection Hs as <- Hs. apply Forall_cons in Hline' as [_ Hline'].
           by apply (IH p' r).
Qed.

(** *** The end of [_platform_name_re] *)

Lemma Matches_rep_space (n : nat) (s s' : str) (g g' : gmap nat str) :
  Matches (Rep n Space) s g s' g' ->
  exists ws, s = ws ++ s' /\ blank ws /\ n <= length ws /\ g' = g.
Proof.
  remember (Rep n Space) as r eqn:Er. intros HM. revert n Er.
  induction HM as [| | | | | | |r s g|min r s g s1 g1 s2 g2 H1 _ Hlt H2 IH| |];
    intros n Er; try discriminate.
  - injection Er as <- _. exists []. split_and!; [done|constructor|done|done].
  - injection Er as -> ->.
    inversion H1 as [|c s0 g0 Hc| | | | | | | | |]; subst.
    destruct (IH _ eq_refl) as (ws & -> & Hws & Hlen & ->).
    exists (c :: ws). split_and!; [done|by constructor|simpl; lia|done].
Qed.

Lemma rep_space_Matches (ws s' : str) (g : gmap nat str) :
  blank ws ->
  forall n, n <= length ws -> Matches (Rep n Space) (ws ++ s') g s' g.
Proof.
  induction 1 as [|c ws Hc Hws IH]; intros n Hn; simpl in *.
  - replace n with 0 by lia. constructor.
  - eapply M_Rep_round; [by apply M_Space| |apply IH; lia]. simpl. lia.
Qed.

Lemma Matches_lit (w : str) :
  forall s s' g g', Matches (lit w) s g s' g' -> s = w ++ s' /\ g' = g.
Proof.
  induction w as [|c w IH]; intros s s' g g' HM; simpl in HM.
  - by inversion HM; subst.
  - inversion HM as [| | | |? ? ? ? s1 g1 ? ? H1 H2| | | | | |]; subst.
    inversion H1; subst. apply IH in H2 as [-> ->]. done.
Qed.

Lemma lit_Matches (w s' : str) (g : gmap nat str) :
  Matches (lit w) (w ++ s') g s' g.
Proof.
  induction w as [|c w IH]; simpl; [constructor|].
  eapply M_Seq; [apply M_Lit|exact IH].
Qed.

Lemma words_cases (w : str) :
  w ∈ words -> w = U "Icon" \/ w = U "Log" \/ w = U "Logo".
Proof. unfold words. rewrite !elem_of_cons, elem_of_nil. tauto. Qed.

Lemma Matches_Seq_inv r1 r2 s g s' g' :
  Matches (Seq r1 r2) s g s' g' ->
  exists s1 g1, Matches r1 s g s1 g1 /\ Matches r2 s1 g1 s' g'.
Proof. inversion 1; subst; eauto. Qed.

Lemma Matches_Alt_inv r1 r2 s g s' g' :
  Matches (Alt r1 r2) s g s' g' ->
  Matches r1 s g s' g' \/ Matches r2 s g s' g'.
Proof. inversion 1; subst; eauto. Qed.

Lemma Matches_Group_inv i r s g s' g' :
  Matches (Group i r) s g s' g' ->
  exists g1, Matches r s g s' g1 /\ g' = <[i := consumed s s']> g1.
Proof. inversion 1; subst; eauto. Qed.

Lemma Matches_AtEnd_inv s g s' g' :
  Matches AtEnd s g s' g' -> s' = s /\ g' = g /\ (s = [] \/ s = [newline]).
Proof. inversion 1; subst; eauto. Qed.

Ltac invert_Matches :=
  repeat match goal with
  | H : Matches (lit _) _ _ _ _ |- _ => apply Matches_lit in H as [-> ->]
  | H : Matches (Rep _ Space) _ _ _ _ |- _ =>
      apply Matches_rep_space in H as (? & -> & ? & ? & ->)
  | H : Matches (Group _ _) _ _ _ _ |- _ =>
      apply Matches_Group_inv in H as (? & H & ->)
  | H : Matches (Seq _ _) _ _ _ _ |- _ =>
      apply Matches_Seq_inv in H as (? & ? & ? & ?)
  | H : Matches (Alt _ _) _ _ _ _ |- _ =>
      apply Matches_Alt_inv in H as [H|H]
  | H : Matches AtEnd _ _ _ _ |- _ =>
      apply Matches_AtEnd_inv in H as (-> & -> & ?)
  end.

(** What [word_tail] can read, and that it leaves group 1 alone. *)
Lemma Matches_word_tail (r s' : str) (g g' : gmap nat str) :
  Matches word_tail r g s' g' -> ends_name r /\ g' !! 1 = g !! 1.
Proof.
  unfold word_tail. intros HM. invert_Matches.
  all: split; [|by rewrite !lookup_insert_ne by done].
  all: match goal with
       | Hb : blank ?ws, He : ?tl = [] \/ ?tl = [newline]
         |- ends_name (?ws ++ ?w ++ ?tl) =>
           exists ws, w, tl; split_and!; try done;
           [by intros ->; simpl in *; lia
           |unfold words; rewrite !elem_of_cons; tauto]
       end.
Qed.

Lemma word_tail_Matches (r : str) (g : gmap nat str) :
  ends_name r -> exists s' g', Matches word_tail r g s' g'.
Proof.
  intros (ws & w & tl & -> & Hne & Hws & Hw & Htl).
  assert (1 <= length ws) as Hlen by (destruct ws; [done|simpl; lia]).
  exists tl. eexists. unfold word_tail.
  apply M_Group. eapply M_Seq; [by apply rep_space_Matches|].
  eapply M_Seq; [|by apply M_AtEnd].
  apply M_Group.
  apply words_cases in Hw as [->|[->| ->]].
  - apply M_Alt_l, lit_Matches.
  - apply M_Alt_r, M_Alt_l, lit_Matches.
  - apply M_Alt_r, M_Alt_r, lit_Matches.
Qed.

(** *** [_platform_name_re] as a whole *)

Lemma consumed_app (p r : str) : consumed (p ++ r) r = p.
Proof.
  unfold consumed. rewrite length_app.
  replace (length p + length r - length r) with (length p) by lia.
  apply take_app_length.
Qed.

Lemma re_match_platform_name (s : str) :
  re_match _platform_name_re s
  = rep_loop (bt Any) 0 (length s) 0 s ∅
      (fun r g => bt word_tail r (<[1 := consumed s r]> g)
                    (fun _ g' => Some g')).
Proof. reflexivity. Qed.

Lemma word_tail_Some (s r : str) (m : gmap nat str) :
  bt word_tail r (<[1 := consumed s r]> ∅) (fun _ g' => Some g') = Some m ->
  ends_name r /\ group m 1 = consumed s r.
Proof.
  intros (s' & g' & HM & [= <-])%bt_sound.
  apply Matches_word_tail in HM as [Hr Hg]. split; [done|].
  unfold group. by rewrite Hg, lookup_insert_eq.
Qed.

Lemma word_tail_None (s r : str) :
  bt word_tail r (<[1 := consumed s r]> ∅) (fun _ g' => Some g') = None ->
  ~ ends_name r.
Proof.
  intros Hnone Hr.
  destruct (word_tail_Matches r (<[1 := consumed s r]> ∅) Hr)
    as (s' & g' & HM).
  destruct (bt_complete _ _ _ _ _ (fun _ g' => Some g') HM) as [m Hm];
    [done|congruence].
Qed.

Lemma words_length (w : str) : w ∈ words -> 3 <= length w.
Proof. intros [->|[->| ->]]%words_cases; simpl; lia. Qed.

(** In a word and the newline that may follow it, no whitespace has four
    characters or more from itself to the end. *)
Lemma words_no_space (w tl : str) (i : nat) (c : char) :
  w ∈ words -> tl = [] \/ tl = [newline] ->
  (w ++ tl) !! i = Some c -> is_space c = true ->
  i + 4 <= length (w ++ tl) -> False.
Proof.
  intros [->|[->| ->]]%words_cases [->| ->] Hi Hc Hlen; simpl in Hlen;
    destruct i as [|[|i]]; simpl in Hi; try lia;
    injection Hi as <-; vm_compute in Hc; discriminate.
Qed.

(** After a name and tight whitespace, no later place of the text starts
    the end of a name on the same line. *)
Lemma no_later_cut (ws w tl q r : str) :
  blank ws -> tight ws -> w ∈ words -> tl = [] \/ tl = [newline] ->
  q <> [] -> one_line q ->
  ws ++ w ++ tl = q ++ r ->
  ~ ends_name r.
Proof.
  intros Hws Htight Hw Htl Hq Hline Heq Hr.
  destruct q as [|c q]; [done|]. apply Forall_cons in Hline as [Hc Hline].
  destruct Htight as [Hlen|Hhead].
  - destruct ws as [|c0 [|c1 ws]]; simpl in Hlen; try lia.
    simpl in Heq. injection Heq as <- Heq.
    destruct Hr as (ws1 & w1 & tl1 & -> & Hne1 & Hws1 & Hw1 & Htl1).
    destruct ws1 as [|c1 ws1]; [done|].
    apply Forall_cons in Hws1 as [Hc1 _].
    apply (words_no_space w tl (length q) c1 Hw Htl); [|done|].
    + rewrite Heq. simpl. by apply list_lookup_middle.
    + apply words_length in Hw1. rewrite Heq. simpl.
      rewrite !length_app. simpl. rewrite !length_app. lia.
  - destruct ws as [|c0 ws]; [done|]. simpl in Hhead, Heq.
    injection Hhead as ->. injection Heq as <- _. done.
Qed.

End ReFacts.

(** ** Platform names *)

(** What the greedy first group keeps.  On a text made of a part [p]
    without newline, tight whitespace, one of the words, and then the end
    of the text or one last newline, [get_platform_name] returns [p]; on
    a text that has no such end after a part without newline, it returns
    the text unchanged. *)
Lemma get_platform_name_cut :
  (forall p ws w tl,
     one_line p -> blank ws -> tight ws -> w ∈ words ->
     tl = [] \/ tl = [newline] ->
     get_platform_name (p ++ ws ++ w ++ tl) = p)
  /\ (forall s,
        (forall p r, s = p ++ r -> one_line p -> ~ ends_name r) ->
        get_platform_name s = s).
Proof.
  split.
  - intros p ws w tl Hp Hws Htight Hw Htl.
    assert (ends_name (ws ++ w ++ tl)) as Hend.
    { exists ws, w, tl. split_and!; try done.
      intros ->. by destruct Htight. }
    unfold get_platform_name. rewrite re_match_platform_name.
    set (s := p ++ ws ++ w ++ tl).
    pose proof (rep_any_greedy
      (fun r g => Re.bt word_tail r (<[1 := Re.consumed s r]> g)
                    (fun _ g' => Some g'))
      s (length s) 0 ∅ (le_n _)) as Hstar.
    destruct (Re.rep_loop _ _ _ _ _ _ _) as [m|].
    + destruct Hstar as (p1 & r1 & Hs & Hp1 & Hk & Hmax).
      apply word_tail_Some in Hk as [Hr1 ->].
      rewrite Hs, consumed_app.
      destruct (Nat.lt_trichotomy (length p1) (length p)) as [Hlt|[Heq|Hgt]].
      * specialize (Hmax p (ws ++ w ++ tl) eq_refl Hp Hlt).
        by apply word_tail_None in Hmax.
      * by apply app_inj_1 in Hs as [-> _].
      * exfalso. unfold s in Hs.
        assert (exists q, p1 = p ++ q /\ q <> []) as (q & -> & Hq).
        { exists (drop (length p) p1). split.
          - rewrite <- (take_drop (length p) p1) at 1. f_equal.
            apply (f_equal (take (length p))) in Hs.
            rewrite take_app_length, take_app_le in Hs by lia. done.
          - intros Hnil%(f_equal length). rewrite length_drop in Hnil.
            simpl in Hnil. lia. }
        rewrite <- app_assoc in Hs. apply app_inv_head in Hs.
        apply Forall_app in Hp1 as [_ Hq1].
        by apply (no_later_cut ws w tl q r1).
    + exfalso. apply (word_tail_None s (ws ++ w ++ tl)); [|exact Hend].
      by apply (Hstar p).
  - intros s Hs. unfold get_platform_name. rewrite re_match_platform_name.
    pose proof (rep_any_greedy
      (fun r g => Re.bt word_tail r (<[1 := Re.consumed s r]> g)
                    (fun _ g' => Some g'))
      s (length s) 0 ∅ (le_n _)) as Hstar.
    destruct (Re.rep_loop _ _ _ _ _ _ _) as [m|]; [|done].
    destruct Hstar as (p1 & r1 & Heq & Hp1 & Hk & _).
    apply word_tail_Some in Hk as [Hr1 _]. by destruct (Hs p1 r1).
Qed.

Lemma app_drop_suffix {A : Type} (a b s : list A) :
  s = a ++ b -> drop (length s - length b) s = b.
Proof.
  intros ->. rewrite length_app.
  replace (length a + length b - length b) with (length a) by lia.
  apply drop_app_length.
Qed.

(** C3, as the script behaves.  On an alt text made of a name without
    newline that does not end in whitespace, then one whitespace character
    or whitespace that starts with a newline, then one of the words Icon,
    Log, Logo, then the end of the text or one last newline,
    [get_platform_name] returns exactly the name.  On a text that is not
    some part without newline, then whitespace, one of the words and the
    end or one last newline, it returns the text unchanged. *)
Theorem get_platform_name_spec :
  (forall name ws w tl,
     one_line name -> trimmed name -> blank ws -> tight ws -> w ∈ words ->
     tl = [] \/ tl = [newline] ->
     get_platform_name (name ++ ws ++ w ++ tl) = name)
  /\ (forall s,
        (forall p r, s = p ++ r -> one_line p -> ~ ends_name r) ->
        get_platform_name s = s).
Proof.
  split.
  - intros name ws w tl Hname _. by apply get_platform_name_cut.
  - apply get_platform_name_cut.
Qed.

Lemma get_platform_name_spec_witness :
  get_platform_name (U "Google Cloud" ++ U " " ++ U "Logo" ++ [])
  = U "Google Cloud"
  /\ get_platform_name (U "AWS icon") = U "AWS icon".
Proof.
  split.
  - apply (proj1 get_platform_name_spec).
    + unfold one_line.
      repeat first [apply Forall_nil_2 | apply Forall_cons_2; [done|]].
    + intros c [= <-]. reflexivity.
    + unfold blank.
      repeat first [apply Forall_nil_2 | apply Forall_cons_2; [done|]].
    + by left.
    + unfold words. rewrite !elem_of_cons. tauto.
    + by left.
  - apply (proj2 get_platform_name_spec).
    intros p r Hs _ (ws & w & tl & -> & _ & _ & Hw & Htl).
    pose proof (app_drop_suffix _ _ _
      (eq_trans Hs (app_assoc p ws (w ++ tl)))) as Hd.
    apply words_cases in Hw as [->|[->| ->]]; destruct Htl as [->| ->];
      vm_compute in Hd; discriminate.
Defined.

(** C3, as stated, fails on both halves.  After two blanks the name that
    comes back keeps the first one, so it is not the name and it ends in
    whitespace; and a text whose word is followed by a newline, where the
    word is not at the end of the string, is not returned unchanged. *)
Lemma get_platform_name_keeps_blank :
  blank (U "  ")
  /\ get_platform_name (U "AWS" ++ U "  " ++ U "Icon") = U "AWS "
  /\ get_platform_name (U "AWS" ++ U "  " ++ U "Icon") <> U "AWS"
  /\ get_platform_name (U "AWS Icon" ++ [newline]) = U "AWS"
  /\ get_platform_name (U "AWS Icon" ++ [newline])
     <> U "AWS Icon" ++ [newline].
Proof.
  split_and!.
  - unfold blank.
    repeat first [apply Forall_nil_2 | apply Forall_cons_2; [done|]].
  - vm_compute. reflexivity.
  - vm_compute. discriminate.
  - vm_compute. reflexivity.
  - vm_compute. discriminate.
Qed.

(** ** The result type and the loops *)

Lemma bind_Ok {A B : Type} (m : result A) (f : A -> result B) (b : B) :
  bind m f = Ok b -> exists a, m = Ok a /\ f a = Ok b.
Proof. destruct m as [a|e]; simpl; [eauto | discriminate]. Qed.

Lemma bind_Err {A B : Type} (m : result A) (f : A -> result B) (e : exn) :
  bind m f = Err e -> m = Err e \/ exists a, m = Ok a /\ f a = Err e.
Proof. destruct m as [a|e']; simpl; [eauto | intros [= ->]; auto]. Qed.

Lemma getitem_Ok {A : Type} (l : list A) (i : nat) (x : A) :
  getitem l i = Ok x <-> l !! i = Some x.
Proof.
  unfold getitem. destruct (l !! i); split; intros H; congruence.
Qed.

Lemma getitem_Err {A : Type} (l : list A) (i : nat) (e : exn) :
  getitem l i = Err e -> e = IndexError /\ length l <= i.
Proof.
  unfold getitem. destruct (l !! i) eqn:E; [discriminate|].
  intros [= <-]. split; [done|]. by apply lookup_ge_None.
Qed.

Lemma find_all_Tag (nm : str) (root n : node) :
  n ∈ find_all nm root -> exists nm' attrs cs, n = Tag nm' attrs cs.
Proof.
  unfold find_all. intros [Hm _]%list_elem_of_filter.
  destruct n as [s|nm' attrs cs]; [discriminate|eauto].
Qed.

Lemma tag_getitem_Err (nm : str) (root n : node) (key : str) (e : exn) :
  n ∈ find_all nm root -> tag_getitem n key = Err e -> e = KeyError.
Proof.
  intros (nm' & attrs & cs & ->)%find_all_Tag. simpl.
  unfold getkey. destruct (attrs !! key); congruence.
Qed.

Lemma for_each_app {A S : Type} (body : S -> A -> result S)
    (l1 l2 : list A) (st : S) :
  for_each body (l1 ++ l2) st
  = (st' <- for_each body l1 st ;; for_each body l2 st').
Proof.
  revert st. induction l1 as [|x l1 IH]; intros st; simpl; [done|].
  destruct (body st x); simpl; auto.
Qed.

(** A loop fails as soon as one round fails whatever state it starts in. *)
Lemma for_each_fails {A S : Type} (body : S -> A -> result S)
    (l : list A) (x : A) (st : S) :
  x ∈ l -> (forall st', exists e, body st' x = Err e) ->
  exists e, for_each body l st = Err e.
Proof.
  intros Hin Hx. revert st.
  induction l as [|y l IH]; intros st; [by apply elem_of_nil in Hin|].
  simpl. apply elem_of_cons in Hin as [->|Hin].
  - destruct (Hx st) as [e ->]. simpl. eauto.
  - destruct (body st y) as [st'|e]; simpl; eauto.
Qed.

(** A loop raises only what its rounds raise. *)
Lemma for_each_Err {A S : Type} (P : exn -> Prop) (body : S -> A -> result S)
    (l : list A) (st : S) (e : exn) :
  (forall st' x e', x ∈ l -> body st' x = Err e' -> P e') ->
  for_each body l st = Err e -> P e.
Proof.
  revert st. induction l as [|x l IH]; intros st Hb; simpl.
  - discriminate.
  - destruct (body st x) as [st'|e'] eqn:E; simpl.
    + apply IH. intros st1 y e1 Hy. apply Hb. by right.
    + intros [= <-]. eapply Hb; [by left|exact E].
Qed.

Lemma comprehension_Err {A B : Type} (P : exn -> Prop) (f : A -> result B)
    (l : list A) (e : exn) :
  (forall x e', x ∈ l -> f x = Err e' -> P e') ->
  comprehension f l = Err e -> P e.
Proof.
  induction l as [|x l IH]; intros Hf; simpl; [discriminate|].
  destruct (f x) as [y|e'] eqn:E; simpl.
  - destruct (comprehension f l); simpl; [discriminate|]. intros [= <-].
    apply IH; [|done]. intros z e1 Hz. apply Hf. by right.
  - intros [= <-]. eapply Hf; [by left|exact E].
Qed.

(** ** What the loops of [get_table_data] append *)

Lemma links_loop (names : list str) (cat svc : str) (ci : nat)
    (ls : list node) (k : nat) (acc res : list Solution) :
  for_each (link_body names cat svc ci) ls acc = Ok res ->
  exists new,
    res = acc ++ new
    /\ Forall2 (fun rec (la : nat * node) => built names cat svc ci la.2 rec)
         new
         (filter (fun la : nat * node => has_text la.2 = true)
            (enumerate_from k ls)).
Proof.
  revert k acc. induction ls as [|a ls IH]; intros k acc; simpl.
  - intros [= <-]. exists []. rewrite app_nil_r. split; [done|constructor].
  - unfold link_body at 1. fold (has_text a).
    destruct (has_text a) eqn:Ha.
    + intros H. apply bind_Ok in H as (acc' & H1 & H2).
      apply bind_Ok in H1 as (pl & Hpl & H1).
      apply bind_Ok in H1 as (d & Hd & H1).
      injection H1 as <-. apply getitem_Ok in Hpl.
      destruct (IH (S k) _ H2) as (new & -> & HF).
      eexists (_ :: new). rewrite <- app_assoc. split; [reflexivity|].
      rewrite filter_cons_True by done.
      constructor; [|exact HF]. split; [done|]. eauto.
    + simpl. intros H. destruct (IH (S k) _ H) as (new & -> & HF).
      exists new. split; [done|].
      rewrite filter_cons_False; [done|]. simpl. congruence.
Qed.

Lemma columns_loop (names : list str) (cat svc : str)
    (ics : list (nat * node)) (acc res : list Solution) :
  for_each (column_body names cat svc) ics acc = Ok res ->
  exists new,
    res = acc ++ new
    /\ Forall2 (fun rec (h : (nat * node) * (nat * node)) =>
                  built names cat svc h.1.1 h.2.2 rec)
         new (column_hits ics).
Proof.
  revert acc. induction ics as [|ic ics IH]; intros acc; simpl.
  - intros [= <-]. exists []. rewrite app_nil_r. split; [done|constructor].
  - intros H. apply bind_Ok in H as (acc' & H1 & H2).
    unfold column_body in H1.
    apply (links_loop _ _ _ _ _ 0) in H1 as (new1 & -> & HF1).
    destruct (IH _ H2) as (new2 & -> & HF2).
    exists (new1 ++ new2). rewrite app_assoc. split; [done|].
    apply Forall2_app; [|exact HF2].
    unfold link_hits, links, enumerate. apply Forall2_fmap_r.
    exact HF1.
Qed.

Lemma rows_loop (names : list str) (irs : list (nat * node))
    (acc res : list Solution) :
  for_each (row_body names) irs.*2 acc = Ok res ->
  exists new,
    res = acc ++ new
    /\ Forall2 (fun rec (h : hit) =>
                  exists c0 c1,
                    cells h.1.1.2 !! 0 = Some c0
                    /\ cells h.1.1.2 !! 1 = Some c1
                    /\ built names (text c0) (text c1) h.1.2.1 h.2.2 rec)
         new (flat_map row_hits irs).
Proof.
  revert acc. induction irs as [|ir irs IH]; intros acc; simpl.
  - intros [= <-]. exists []. rewrite app_nil_r. split; [done|constructor].
  - intros H. apply bind_Ok in H as (acc' & H1 & H2).
    unfold row_body in H1.
    apply bind_Ok in H1 as (c0 & Hc0 & H1).
    apply bind_Ok in H1 as (c1 & Hc1 & H1).
    apply getitem_Ok in Hc0, Hc1.
    apply columns_loop in H1 as (new1 & -> & HF1).
    destruct (IH _ H2) as (new2 & -> & HF2).
    exists (new1 ++ new2). rewrite app_assoc. split; [done|].
    apply Forall2_app; [|exact HF2].
    unfold row_hits. apply Forall2_fmap_r.
    eapply Forall2_impl; [exact HF1|].
    intros rec h Hb. simpl. exists c0, c1. auto.
Qed.

(** ** Enumerations and positions *)

Lemma enumerate_from_snd {A : Type} (k : nat) (l : list A) :
  (enumerate_from k l).*2 = l.
Proof. revert k. induction l as [|x l IH]; intros k; simpl; [done|]. by rewrite IH. Qed.

Lemma enumerate_from_lookup {A : Type} (k : nat) (l : list A) :
  Forall (fun ix : nat * A => k <= ix.1 /\ l !! (ix.1 - k) = Some ix.2)
    (enumerate_from k l).
Proof.
  revert k. induction l as [|x l IH]; intros k; simpl; constructor.
  - simpl. split; [lia|]. by rewrite Nat.sub_diag.
  - eapply Forall_impl; [apply (IH (S k))|].
    intros [i y] [Hle Hy]; simpl in *. split; [lia|].
    replace (i - k) with (S (i - S k)) by lia. exact Hy.
Qed.

Lemma enumerate_lookup {A : Type} (l : list A) :
  Forall (fun ix : nat * A => l !! ix.1 = Some ix.2) (enumerate l).
Proof.
  eapply Forall_impl; [apply (enumerate_from_lookup 0)|].
  intros [i y] [_ Hy]; simpl in *. by rewrite Nat.sub_0_r in Hy.
Qed.

Lemma enumerate_from_sorted {A : Type} (k : nat) (l : list A) :
  StronglySorted (fun a b : nat * A => a.1 < b.1) (enumerate_from k l).
Proof.
  revert k. induction l as [|x l IH]; intros k; simpl; constructor.
  - apply IH.
  - eapply Forall_impl; [apply (enumerate_from_lookup (S k))|].
    intros [i y] [Hle _]; simpl in *. lia.
Qed.

Lemma StronglySorted_filter {A : Type} (R : relation A) (P : A -> Prop)
    `{!forall x, Decision (P x)} (l : list A) :
  StronglySorted R l -> StronglySorted R (filter P l).
Proof.
  induction 1 as [|x l Hs IH Hx]; [constructor|].
  destruct (decide (P x)).
  - rewrite filter_cons_True by done. constructor; [done|].
    apply Forall_forall. intros y Hy%list_elem_of_filter.
    rewrite Forall_forall in Hx. apply Hx. tauto.
  - by rewrite filter_cons_False.
Qed.

Lemma StronglySorted_flat_map {A B : Type} (Q : relation A) (R : relation B)
    (f : A -> list B) (l : list A) :
  StronglySorted Q l ->
  (forall x, StronglySorted R (f x)) ->
  (forall x y a b, Q x y -> a ∈ f x -> b ∈ f y -> R a b) ->
  StronglySorted R (flat_map f l).
Proof.
  intros Hl Hf HQ. induction Hl as [|x l Hs IH Hx]; simpl; [constructor|].
  apply StronglySorted_app. split_and!; [|apply Hf|apply IH].
  intros a b Ha Hb.
  apply list_elem_of_In, in_flat_map in Hb as (y & Hy & Hb).
  rewrite Forall_forall in Hx.
  apply (HQ x y); [|done|by apply list_elem_of_In].
  apply Hx. by apply list_elem_of_In.
Qed.

Lemma link_positions_elem (ri ci : nat) (column : node) (p : position) :
  p ∈ link_positions ri ci column -> p.1.1 = ri /\ p.1.2 = ci.
Proof.
  unfold link_positions. intros (la & -> & _)%list_elem_of_fmap. done.
Qed.

Lemma row_positions_elem (ri : nat) (row : node) (p : position) :
  p ∈ row_positions ri row -> p.1.1 = ri.
Proof.
  unfold row_positions.
  intros (ic & _ & Hp)%list_elem_of_In%in_flat_map.
  apply list_elem_of_In, link_positions_elem in Hp. tauto.
Qed.

Lemma positions_sorted (rows : list node) :
  StronglySorted lex_lt (positions rows).
Proof.
  unfold positions.
  apply (StronglySorted_flat_map (fun a b : nat * node => a.1 < b.1));
    [apply enumerate_from_sorted| |].
  - intros [ri row]; simpl. unfold row_positions.
    apply (StronglySorted_flat_map (fun a b : nat * node => a.1 < b.1));
      [apply enumerate_from_sorted| |].
    + intros [ci column]; simpl. unfold link_positions.
      apply (StronglySorted_fmap _ (fun a b : nat * node => a.1 < b.1)).
      * intros a b Hab. unfold lex_lt; simpl. auto.
      * apply StronglySorted_filter, enumerate_from_sorted.
    + intros [ci column] [cj column'] a b Hlt Ha Hb; simpl in *.
      apply link_positions_elem in Ha as [Ha1 Ha2], Hb as [Hb1 Hb2].
      unfold lex_lt. right. split; [congruence|]. left. lia.
  - intros [ri row] [rj row'] a b Hlt Ha Hb; simpl in *.
    apply row_positions_elem in Ha, Hb. unfold lex_lt. left. lia.
Qed.

Lemma positions_hits (rows : list node) :
  map hit_position (hits rows) = positions rows.
Proof.
  unfold hits, positions.
  induction (enumerate (data_rows rows)) as [|[ri row] irs IH]; simpl; [done|].
  rewrite map_app, IH. f_equal.
  unfold row_hits, row_positions; simpl. rewrite map_map.
  induction (enumerate (platform_columns row)) as [|[ci column] ics IHc];
    simpl; [done|].
  rewrite map_app, IHc. f_equal.
  unfold link_positions, link_hits. by rewrite map_map.
Qed.


(** Every hit names the row, the column and the hyperlink found at its
    indices. *)
Lemma hits_lookup (rows : list node) :
  Forall (fun h : hit =>
            data_rows rows !! h.1.1.1 = Some h.1.1.2
            /\ platform_columns h.1.1.2 !! h.1.2.1 = Some h.1.2.2
            /\ links h.1.2.2 !! h.2.1 = Some h.2.2)
    (hits rows).
Proof.
  apply Forall_forall. intros [[ir ic] la] Hh. simpl.
  apply list_elem_of_In, in_flat_map in Hh as (ir' & Hir & Hh).
  unfold row_hits in Hh.
  apply list_elem_of_In, list_elem_of_fmap in Hh as ([ic' la'] & [= -> -> ->] & Hh).
  apply list_elem_of_In, in_flat_map in Hh as (ic'' & Hic & Hh).
  apply list_elem_of_In, list_elem_of_fmap in Hh as (la'' & [= -> ->] & Hla).
  apply list_elem_of_filter in Hla as [_ Hla].
  pose proof (enumerate_lookup (data_rows rows)) as H1.
  pose proof (enumerate_lookup (platform_columns ir'.2)) as H2.
  pose proof (enumerate_lookup (links ic''.2)) as H3.
  rewrite Forall_forall in H1, H2, H3.
  split_and!; [apply H1|apply H2|apply H3]; try done;
    by apply list_elem_of_In.
Qed.

(** ** [get_table_data]: what it returns *)

Lemma Forall2_and_r {A B : Type} (R : A -> B -> Prop) (P : B -> Prop)
    (l : list A) (k : list B) :
  Forall2 R l k -> Forall P k -> Forall2 (fun x y => R x y /\ P y) l k.
Proof.
  induction 1 as [|x y l k Hxy _ IH]; [constructor|].
  intros [Hy Hk]%Forall_cons. constructor; auto.
Qed.

(** The records returned are, one for one and in order, those built from
    the hyperlinks at [positions rows]. *)
Lemma get_table_data_emits (rows : list node) (recs : list Solution) :
  get_table_data rows = Ok recs ->
  exists names,
    get_table_headers rows = Ok names
    /\ Forall2 (emitted rows names) recs (positions rows).
Proof.
  unfold get_table_data. intros H.
  apply bind_Ok in H as (names & Hn & H). exists names. split; [done|].
  change (drop 1 rows) with (data_rows rows) in H.
  rewrite <- (enumerate_from_snd 0 (data_rows rows)) in H.
  apply rows_loop in H as (new & -> & HF). simpl.
  fold (enumerate (data_rows rows)) in HF. fold (hits rows) in HF.
  rewrite <- positions_hits. apply Forall2_fmap_r.
  eapply Forall2_impl; [exact (Forall2_and_r _ _ _ _ HF (hits_lookup rows))|].
  intros rec [[[ri row] [ci column]] [li a]]; simpl.
  intros [(c0 & c1 & Hc0 & Hc1 & Ha & pl & d & Hpl & Hd & ->) (Hr & Hc & Hl)].
  unfold emitted; simpl. exists row, c0, c1, column, a, pl, d. done.
Qed.


(** ** [get_table_data]: when it raises *)

Lemma get_table_headers_raw (rows : list node) (e : exn) :
  get_table_headers rows = Err e -> raw_fault e.
Proof.
  unfold get_table_headers. intros [H|(r & _ & H)]%bind_Err.
  - apply getitem_Err in H as [-> _]. by left.
  - revert H. apply comprehension_Err.
    intros img e' Himg [H|(alt & _ & H)]%bind_Err; [|discriminate].
    apply (tag_getitem_Err _ _ _ _ _ Himg) in H as ->. by right.
Qed.

Lemma link_body_raw names cat svc ci acc column a e :
  a ∈ links column ->
  link_body names cat svc ci acc a = Err e -> raw_fault e.
Proof.
  intros Ha. unfold link_body. destruct (truthy (text a)); [|discriminate].
  intros [H|(pl & _ & H)]%bind_Err.
  - apply getitem_Err in H as [-> _]. by left.
  - apply bind_Err in H as [H|(d & _ & H)]; [|discriminate].
    apply (tag_getitem_Err _ _ _ _ _ Ha) in H as ->. by right.
Qed.

Lemma row_body_raw names acc row e :
  row_body names acc row = Err e -> raw_fault e.
Proof.
  unfold row_body. intros [H|(c0 & _ & H)]%bind_Err.
  { apply getitem_Err in H as [-> _]. by left. }
  apply bind_Err in H as [H|(c1 & _ & H)].
  { apply getitem_Err in H as [-> _]. by left. }
  revert H. apply for_each_Err. intros acc' ic e' _. unfold column_body.
  apply for_each_Err. intros acc'' a e'' Ha.
  by apply (link_body_raw _ _ _ _ _ ic.2).
Qed.

(** Whatever [get_table_data] raises is an [IndexError] or a [KeyError]. *)
Lemma get_table_data_raw (rows : list node) (e : exn) :
  get_table_data rows = Err e -> raw_fault e.
Proof.
  unfold get_table_data. intros [H|(names & _ & H)]%bind_Err.
  - by apply get_table_headers_raw in H.
  - revert H. apply for_each_Err. intros acc row e' _. apply row_body_raw.
Qed.

(** A data row on which the loop body raises makes the extraction raise. *)
Lemma get_table_data_fails (rows : list node) (row : node) :
  row ∈ data_rows rows ->
  (forall names acc, exists e, row_body names acc row = Err e) ->
  exists e, get_table_data rows = Err e /\ raw_fault e.
Proof.
  intros Hin Hrow.
  assert (exists e, get_table_data rows = Err e) as [e He].
  { unfold get_table_data.
    destruct (get_table_headers rows) as [names|e]; simpl; [|eauto].
    eapply for_each_fails; [exact Hin|]. intros acc. apply Hrow. }
  exists e. split; [done|]. by apply get_table_data_raw in He.
Qed.

Lemma raw_fault_not_StructureError (e : exn) :
  raw_fault e -> e <> StructureError.
Proof. intros [-> | ->]; discriminate. Qed.

Lemma enumerate_from_elem {A : Type} (k : nat) (l : list A) (x : A) :
  x ∈ l -> exists i, (i, x) ∈ enumerate_from k l.
Proof.
  revert k. induction l as [|y l IH]; intros k Hx;
    [by apply elem_of_nil in Hx|].
  apply elem_of_cons in Hx as [->|Hx]; simpl.
  - exists k. by left.
  - destruct (IH (S k) Hx) as [i Hi]. exists i. by right.
Qed.

(** ** [get_table_data]: when it returns *)

Lemma comprehension_Ok {A B : Type} (f : A -> result B) (l : list A) :
  Forall (fun x => exists y, f x = Ok y) l ->
  exists ys, comprehension f l = Ok ys /\ length ys = length l.
Proof.
  induction 1 as [|x l [y Hy] _ (ys & IH & Hlen)]; simpl.
  - by exists [].
  - rewrite Hy, IH. simpl. exists (y :: ys). by rewrite <- Hlen.
Qed.

Lemma for_each_Ok {A S : Type} (body : S -> A -> result S) (l : list A) :
  Forall (fun x => forall st, exists st', body st x = Ok st') l ->
  forall st, exists st', for_each body l st = Ok st'.
Proof.
  induction 1 as [|x l Hx _ IH]; intros st; simpl; [eauto|].
  destruct (Hx st) as [st' ->]. simpl. apply IH.
Qed.

(** On a well formed table [get_table_data] returns a list. *)
Lemma get_table_data_returns (rows : list node) :
  well_formed rows -> exists recs, get_table_data rows = Ok recs.
Proof.
  intros (header & Hh & Himgs & Hrows).
  unfold get_table_data, get_table_headers, getitem. rewrite Hh. cbn [bind].
  destruct (comprehension_Ok
    (fun img_tag => alt <- tag_getitem img_tag (U "alt") ;;
                    Ok (get_platform_name alt))
    (find_all (U "img") header)) as (names & -> & Hlen).
  { eapply Forall_impl; [exact Himgs|]. intros img [alt ->]. simpl. eauto. }
  cbn [bind]. apply for_each_Ok. fold (data_rows rows).
  eapply Forall_impl; [exact Hrows|]. intros row [Hcells Hlinks] acc.
  unfold row_body, getitem. fold (cells row).
  destruct (cells row) as [|c0 [|c1 cs]] eqn:Ecells;
    simpl in Hcells; [lia|lia|]. simpl.
  change (drop 0 cs) with (drop 2 (c0 :: c1 :: cs)). rewrite <- Ecells.
  fold (platform_columns row). apply for_each_Ok.
  eapply Forall_impl; [apply enumerate_lookup|].
  intros [ci column] Hci acc'. simpl in Hci. unfold column_body. simpl.
  fold (links column). apply for_each_Ok.
  apply Forall_forall. intros a Ha acc''.
  unfold link_body, getitem. fold (has_text a).
  destruct (has_text a) eqn:Htext; [|eauto].
  destruct (Hlinks ci column a Hci Ha Htext) as [Hlt [d Hd]].
  rewrite <- Hlen in Hlt. apply lookup_lt_is_Some_2 in Hlt as [pl ->].
  cbn [bind]. rewrite Hd. simpl. eauto.
Qed.

Lemma comprehension_Ok_inv {A B : Type} (f : A -> result B) (l : list A)
    (ys : list B) :
  comprehension f l = Ok ys ->
  Forall (fun x => exists y, f x = Ok y) l /\ length ys = length l.
Proof.
  revert ys. induction l as [|x l IH]; intros ys; simpl.
  - intros [= <-]. by split.
  - intros (y & Hy & H)%bind_Ok. apply bind_Ok in H as (ys' & H & [= <-]).
    destruct (IH _ H) as [HF Hlen]. split; [constructor; eauto|].
    simpl. by rewrite Hlen.
Qed.

Lemma for_each_Ok_inv {A S : Type} (body : S -> A -> result S) (l : list A)
    (st st' : S) :
  for_each body l st = Ok st' ->
  Forall (fun x => exists st1 st2, body st1 x = Ok st2) l.
Proof.
  revert st. induction l as [|x l IH]; intros st; simpl; [constructor|].
  intros (st1 & Hx & H)%bind_Ok. constructor; eauto.
Qed.

Lemma enumerate_from_elem_lookup {A : Type} (k : nat) (l : list A)
    (i : nat) (x : A) :
  l !! i = Some x -> (k + i, x) ∈ enumerate_from k l.
Proof.
  revert k i. induction l as [|y l IH]; intros k i; [done|].
  destruct i as [|i]; simpl.
  - intros [= ->]. rewrite Nat.add_0_r. by left.
  - intros Hi. right. replace (k + S i) with (S k + i) by lia. by apply IH.
Qed.

(** [get_table_data] returns a list on the well formed tables only. *)
Lemma get_table_data_returns_inv (rows : list node) (recs : list Solution) :
  get_table_data rows = Ok recs -> well_formed rows.
Proof.
  unfold get_table_data, get_table_headers.
  intros (names & Hn & Hloop)%bind_Ok.
  apply bind_Ok in Hn as (header & Hh%getitem_Ok & Hn).
  apply comprehension_Ok_inv in Hn as [Himgs Hlen].
  exists header. split_and!; [done| |].
  - eapply Forall_impl; [exact Himgs|].
    intros img [y (alt & Halt & _)%bind_Ok]. eauto.
  - apply for_each_Ok_inv in Hloop. fold (data_rows rows) in Hloop.
    eapply Forall_impl; [exact Hloop|].
    intros row (acc & acc' & Hrow). unfold row_body in Hrow.
    fold (cells row) in Hrow.
    apply bind_Ok in Hrow as (c0 & Hc0%getitem_Ok & Hrow).
    apply bind_Ok in Hrow as (c1 & Hc1%getitem_Ok & Hrow).
    split; [by apply lookup_lt_Some in Hc1|].
    intros ci column a Hci Ha Htext.
    apply for_each_Ok_inv in Hrow. fold (platform_columns row) in Hrow.
    rewrite Forall_forall in Hrow.
    destruct (Hrow (ci, column)) as (acc1 & acc2 & Hcol).
    { by apply (enumerate_from_elem_lookup 0). }
    unfold column_body in Hcol. simpl in Hcol.
    apply for_each_Ok_inv in Hcol. fold (links column) in Hcol.
    rewrite Forall_forall in Hcol.
    destruct (Hcol a Ha) as (acc3 & acc4 & Hlink).
    unfold link_body in Hlink. fold (has_text a) in Hlink.
    rewrite Htext in Hlink.
    apply bind_Ok in Hlink as (pl & Hpl%getitem_Ok & Hlink).
    apply bind_Ok in Hlink as (d & Hd & _).
    split; [|eauto]. rewrite <- Hlen. by apply lookup_lt_Some in Hpl.
Qed.

(** ** Row extraction: the records and their order *)

(** *** Counting the hyperlinks once *)

Lemma descendants_Tag_cons nm attrs (c : node) (l : list node) :
  descendants (Tag nm attrs (c :: l))
  = c :: descendants c ++ descendants (Tag nm attrs l).
Proof. reflexivity. Qed.















(** C2. When [get_table_data] returns, its records are, one for one and in
    the same order, the records built from the hyperlinks at
    [positions rows], and these positions increase strictly in the order
    data row first, platform column second, place of the hyperlink in its
    cell third. *)
Theorem get_table_data_order (rows : list node) (recs : list Solution) :
  get_table_data rows = Ok recs ->
  exists names,
    get_table_headers rows = Ok names
    /\ Forall2 (emitted rows names) recs (positions rows)
    /\ StronglySorted lex_lt (positions rows).
Proof.
  intros (names & Hn & HF)%get_table_data_emits.
  exists names. split_and!; [done|done|apply positions_sorted].
Qed.

Lemma get_table_data_order_witness :
  exists names,
    get_table_headers two_platform_rows = Ok names
    /\ Forall2 (emitted two_platform_rows names)
         [{| category := U "Compute"; service := U "VM"; platform := U "AWS";
             name := U "EC2"; description := U "http://ec2" |};
          {| category := U "Compute"; service := U "VM";
             platform := U "Azure"; name := U "VMs";
             description := U "http://vms" |};
          {| category := U "Storage"; service := U "Object";
             platform := U "AWS"; name := U "S3";
             description := U "http://s3" |}]
         (positions two_platform_rows)
    /\ StronglySorted lex_lt (positions two_platform_rows).
Proof.
  apply get_table_data_order. vm_compute. reflexivity.
Defined.

(** C5. When the header row gives the platform names [names] and
    [get_table_data] returns, the records are, one for one and in order,
    those of the hyperlinks at [positions rows]: the record paired with
    the position (row, column [ci], place in the cell) is built from the
    hyperlink at that place of the cell at place [2 + ci] of that data
    row, from its text and its href and from the first two cells of the
    row, and its platform is the name at index [ci] of [names], one of
    the names of the header row. *)
Theorem get_table_data_platform (rows : list node) (names : list str)
    (recs : list Solution) :
  get_table_headers rows = Ok names ->
  get_table_data rows = Ok recs ->
  Forall2
    (fun rec (p : position) =>
       exists row c0 c1 cell a d,
         data_rows rows !! p.1.1 = Some row
         /\ cells row !! 0 = Some c0
         /\ cells row !! 1 = Some c1
         /\ cells row !! (2 + p.1.2) = Some cell
         /\ links cell !! p.2 = Some a
         /\ has_text a = true
         /\ tag_getitem a (U "href") = Ok d
         /\ names !! p.1.2 = Some (platform rec)
         /\ platform rec ∈ names
         /\ rec = {| category := text c0; service := text c1;
                     platform := platform rec; name := text a;
                     description := d |})
    recs (positions rows).
Proof.
  intros Hn (names' & Hn' & HF)%get_table_data_emits.
  assert (names' = names) as -> by congruence.
  eapply Forall2_impl; [exact HF|].
  intros rec p (row & c0 & c1 & column & a & pl & d & Hp).
  destruct Hp as (Hr & Hc0 & Hc1 & Hc & Ha & Ht & Hpl & Hd & ->). simpl.
  exists row, c0, c1, column, a, d.
  split_and!; try done.
  - unfold platform_columns in Hc. by rewrite lookup_drop in Hc.
  - by eapply list_elem_of_lookup_2.
Qed.

Lemma get_table_data_platform_witness :
  Forall2
    (fun rec (p : position) =>
       exists row c0 c1 cell a d,
         data_rows two_platform_rows !! p.1.1 = Some row
         /\ cells row !! 0 = Some c0
         /\ cells row !! 1 = Some c1
         /\ cells row !! (2 + p.1.2) = Some cell
         /\ links cell !! p.2 = Some a
         /\ has_text a = true
         /\ tag_getitem a (U "href") = Ok d
         /\ [U "AWS"; U "Azure"] !! p.1.2 = Some (platform rec)
         /\ platform rec ∈ [U "AWS"; U "Azure"]
         /\ rec = {| category := text c0; service := text c1;
                     platform := platform rec; name := text a;
                     description := d |})
    [{| category := U "Compute"; service := U "VM"; platform := U "AWS";
        name := U "EC2"; description := U "http://ec2" |};
     {| category := U "Compute"; service := U "VM"; platform := U "Azure";
        name := U "VMs"; description := U "http://vms" |};
     {| category := U "Storage"; service := U "Object"; platform := U "AWS";
        name := U "S3"; description := U "http://s3" |}]
    (positions two_platform_rows).
Proof.
  apply (get_table_data_platform two_platform_rows [U "AWS"; U "Azure"]);
    vm_compute; reflexivity.
Defined.

(** ** Row extraction: malformed rows *)

(** C7, as the script behaves.  On a data row with fewer than two cells
    the loop body raises [IndexError], whatever the platform names and the
    records collected so far; [get_table_data] on a table with such a row
    raises, and what it raises is an [IndexError] or a [KeyError] of the
    run time, never a [StructureError]. *)
Theorem short_row_raises (rows : list node) (row : node) :
  row ∈ data_rows rows ->
  length (cells row) < 2 ->
  (forall names acc, row_body names acc row = Err IndexError)
  /\ exists e,
       get_table_data rows = Err e /\ raw_fault e /\ e <> StructureError.
Proof.
  intros Hin Hlen.
  assert (forall names acc, row_body names acc row = Err IndexError) as Hrow.
  { intros names acc. unfold row_body. fold (cells row).
    destruct (cells row) as [|c0 [|c1 cs]]; simpl in *; [done|done|lia]. }
  split; [exact Hrow|].
  destruct (get_table_data_fails rows row Hin) as (e & He & Hraw).
  { intros names acc. rewrite Hrow. eauto. }
  exists e. split_and!; [done|done|by apply raw_fault_not_StructureError].
Qed.

Lemma short_row_raises_witness :
  (forall names acc, row_body names acc short_row = Err IndexError)
  /\ exists e,
       get_table_data [aws_header; aws_row; short_row] = Err e
       /\ raw_fault e /\ e <> StructureError.
Proof.
  apply (short_row_raises [aws_header; aws_row; short_row] short_row).
  - vm_compute. apply list_elem_of_In. simpl. auto.
  - vm_compute. lia.
Defined.

(** C7, as stated, fails: on a table whose data row has one cell the
    extraction raises [IndexError], which is no [StructureError]. *)
Lemma short_row_no_StructureError :
  short_row ∈ data_rows [aws_header; short_row]
  /\ length (cells short_row) < 2
  /\ get_table_data [aws_header; short_row] = Err IndexError
  /\ get_table_data [aws_header; short_row] <> Err StructureError.
Proof.
  split_and!.
  - vm_compute. by left.
  - vm_compute. lia.
  - vm_compute. reflexivity.
  - vm_compute. discriminate.
Qed.

(** C8, as the script behaves.  On a hyperlink with visible text and no
    [href] the innermost loop body raises: [KeyError] when the platform
    names reach the index of the column, [IndexError] otherwise;
    [get_table_data] on a table with such a hyperlink in a platform column
    raises an [IndexError] or a [KeyError], never a [StructureError]. *)
Theorem missing_href_raises (rows : list node) (row column a : node) :
  row ∈ data_rows rows ->
  column ∈ platform_columns row ->
  a ∈ links column ->
  has_text a = true ->
  tag_getitem a (U "href") = Err KeyError ->
  (forall names cat svc ci acc,
     link_body names cat svc ci acc a
     = if decide (ci < length names) then Err KeyError else Err IndexError)
  /\ exists e,
       get_table_data rows = Err e /\ raw_fault e /\ e <> StructureError.
Proof.
  intros Hrow Hcol Ha Htext Hhref.
  assert (forall names cat svc ci acc,
     link_body names cat svc ci acc a
     = if decide (ci < length names) then Err KeyError else Err IndexError)
    as Hlink.
  { intros names cat svc ci acc. unfold link_body. fold (has_text a).
    rewrite Htext. unfold getitem. case_decide as Hci.
    - apply lookup_lt_is_Some_2 in Hci as [pl ->]. cbn [bind]. by rewrite Hhref.
    - rewrite lookup_ge_None_2 by lia. done. }
  split; [exact Hlink|].
  destruct (get_table_data_fails rows row Hrow) as (e & He & Hraw).
  { intros names acc. unfold row_body. fold (cells row).
    destruct (getitem (cells row) 0) as [c0|e0]; simpl; [|eauto].
    destruct (getitem (cells row) 1) as [c1|e1]; simpl; [|eauto].
    fold (platform_columns row).
    destruct (enumerate_from_elem 0 _ _ Hcol) as [ci Hci].
    eapply for_each_fails; [exact Hci|]. intros acc'.
    unfold column_body; simpl. fold (links column).
    eapply for_each_fails; [exact Ha|]. intros acc''.
    rewrite Hlink. case_decide; eauto. }
  exists e. split_and!; [done|done|by apply raw_fault_not_StructureError].
Qed.

Lemma missing_href_raises_witness :
  (forall names cat svc ci acc,
     link_body names cat svc ci acc bare_link
     = if decide (ci < length names) then Err KeyError else Err IndexError)
  /\ exists e,
       get_table_data [aws_header; aws_row; bare_link_row] = Err e
       /\ raw_fault e /\ e <> StructureError.
Proof.
  apply (missing_href_raises [aws_header; aws_row; bare_link_row]
           bare_link_row (Tag (U "td") ∅ [bare_link]) bare_link).
  - vm_compute. apply list_elem_of_In. simpl. auto.
  - vm_compute. apply list_elem_of_In. simpl. auto.
  - vm_compute. apply list_elem_of_In. simpl. auto.
  - vm_compute. reflexivity.
  - vm_compute. reflexivity.
Defined.

(** C8, as stated, fails: a hyperlink with text and no [href] in the only
    platform column makes the extraction raise [KeyError], which is no
    [StructureError]. *)
Lemma missing_href_no_StructureError :
  bare_link ∈ links (Tag (U "td") ∅ [bare_link])
  /\ has_text bare_link = true
  /\ tag_getitem bare_link (U "href") = Err KeyError
  /\ get_table_data [aws_header; bare_link_row] = Err KeyError
  /\ get_table_data [aws_header; bare_link_row] <> Err StructureError.
Proof.
  split_and!.
  - vm_compute. by left.
  - vm_compute. reflexivity.
  - vm_compute. reflexivity.
  - vm_compute. reflexivity.
  - vm_compute. discriminate.
Qed.

(** C10. On a data row with exactly two cells the loop body returns the
    records collected so far unchanged, whatever the platform names; so a
    table gives the same result, records or exception, with and without
    such a row. *)
Theorem two_cell_row_emits_nothing (row : node) :
  length (cells row) = 2 ->
  (forall names acc, row_body names acc row = Ok acc)
  /\ forall header before after,
       get_table_data (header :: before ++ row :: after)
       = get_table_data (header :: before ++ after).
Proof.
  intros Hlen.
  assert (forall names acc, row_body names acc row = Ok acc) as Hrow.
  { intros names acc. unfold row_body. fold (cells row).
    destruct (cells row) as [|c0 [|c1 [|c2 cs]]]; simpl in *; done. }
  split; [exact Hrow|].
  intros header before after. unfold get_table_data.
  replace (get_table_headers (header :: before ++ row :: after))
    with (get_table_headers (header :: before ++ after)) by done.
  destruct (get_table_headers (header :: before ++ after)) as [names|e];
    simpl; [|done].
  rewrite !drop_0, !for_each_app.
  destruct (for_each (row_body names) before []) as [acc|e]; simpl; [|done].
  by rewrite Hrow.
Qed.

Lemma two_cell_row_emits_nothing_witness :
  (forall names acc, row_body names acc label_row = Ok acc)
  /\ forall header before after,
       get_table_data (header :: before ++ label_row :: after)
       = get_table_data (header :: before ++ after).
Proof.
  apply two_cell_row_emits_nothing. vm_compute. reflexivity.
Defined.

(** ** The run: locating the table, writing the file *)

Lemma write_open_w (path data : str) (fs : files) :
  write path data (open_w path fs) = <[path := data]> fs.
Proof. unfold write, open_w. by rewrite alter_insert_eq. Qed.

Lemma write_insert (path old data : str) (fs : files) :
  write path data (<[path := old]> fs) = <[path := old ++ data]> fs.
Proof. unfold write. by rewrite alter_insert_eq. Qed.

Section RunFacts.

Variable requests_get : str -> result (list Byte.byte).
Variable bs : list Byte.byte -> node.

(** C4. When the page served is [aws_page] (a comparison table with the
    header image "AWS Icon" and the data row Compute, VM, hyperlink EC2
    to http://x), the run succeeds and leaves in [./clouds.csv] the
    header line, one newline, and the line of the record, with no
    newline at the end; the other files are untouched. *)
Theorem main_aws_page (page : list Byte.byte) (fs : files) :
  requests_get (U "https://comparecloud.in/") = Ok page ->
  bs page = aws_page ->
  main requests_get bs fs
  = (Ok tt,
     <[U "./clouds.csv" :=
         U "Category,Service,Platform,Solution,Description"
         ++ [newline] ++ U "Compute,VM,AWS,EC2,http://x"]> fs).
Proof.
  intros Hget Hbs. unfold main, get_all_solutions, get_table_rows.
  rewrite Hget. cbn [bind]. rewrite Hbs.
  replace (find (U "table") [(U "id", U "comparison")] aws_page)
    with (Some aws_table) by (vm_compute; reflexivity).
  cbn [bind].
  replace (get_table_data (find_all (U "tr") aws_table))
    with (Ok [{| category := U "Compute"; service := U "VM";
                 platform := U "AWS"; name := U "EC2";
                 description := U "http://x" |}])
    by (vm_compute; reflexivity).
  rewrite write_open_w, !write_insert. f_equal.
Qed.

(** C6. When the extraction raises, at the fetch, in the header row or
    in a data row, the run ends with that exception and the files are
    as they were: the output file is opened only after
    [get_all_solutions] has returned the whole list. *)
Theorem main_failure_writes_nothing (fs : files) (e : exn) :
  get_all_solutions requests_get bs (U "https://comparecloud.in/") = Err e ->
  main requests_get bs fs = (Err e, fs).
Proof. intros H. unfold main. by rewrite H. Qed.

(** C9, as the script behaves.  When the page has no table with id
    [comparison], [get_table_rows] raises [AttributeError]; when the
    table is there and has no row, [get_table_rows] returns the empty
    list without raising, and the exception comes from the header stage
    of [get_all_solutions], as an [IndexError]. *)
Theorem get_table_rows_missing_table (webpage : str)
    (page : list Byte.byte) :
  requests_get webpage = Ok page ->
  (find (U "table") [(U "id", U "comparison")] (bs page) = None ->
   get_table_rows requests_get bs webpage = Err AttributeError)
  /\ (forall table,
        find (U "table") [(U "id", U "comparison")] (bs page) = Some table ->
        find_all (U "tr") table = [] ->
        get_table_rows requests_get bs webpage = Ok []
        /\ get_all_solutions requests_get bs webpage = Err IndexError).
Proof.
  intros Hget. split.
  - intros Hnone. unfold get_table_rows. rewrite Hget. cbn [bind].
    by rewrite Hnone.
  - intros table Hsome Hrows.
    assert (get_table_rows requests_get bs webpage = Ok []) as Hr.
    { unfold get_table_rows. rewrite Hget. cbn [bind].
      by rewrite Hsome, Hrows. }
    split; [exact Hr|]. unfold get_all_solutions. by rewrite Hr.
Qed.

End RunFacts.

Lemma main_aws_page_witness :
  main (fun _ => Ok []) (fun _ => aws_page) ∅
  = (Ok tt,
     <[U "./clouds.csv" :=
         U "Category,Service,Platform,Solution,Description"
         ++ [newline] ++ U "Compute,VM,AWS,EC2,http://x"]> ∅).
Proof.
  apply (main_aws_page (fun _ => Ok []) (fun _ => aws_page) []);
    reflexivity.
Defined.

Lemma main_failure_writes_nothing_witness :
  main (fun _ => Err RequestException) (fun _ => aws_page)
    {[ U "./clouds.csv" := U "old" ]}
  = (Err RequestException, {[ U "./clouds.csv" := U "old" ]}).
Proof.
  apply (main_failure_writes_nothing (fun _ => Err RequestException)).
  reflexivity.
Defined.

Lemma get_table_rows_missing_table_witness :
  (find (U "table") [(U "id", U "comparison")] other_page = None ->
   get_table_rows (fun _ => Ok []) (fun _ => other_page) (U "u")
   = Err AttributeError)
  /\ (forall table,
        find (U "table") [(U "id", U "comparison")] other_page = Some table ->
        find_all (U "tr") table = [] ->
        get_table_rows (fun _ => Ok []) (fun _ => other_page) (U "u") = Ok []
        /\ get_all_solutions (fun _ => Ok []) (fun _ => other_page) (U "u")
           = Err IndexError).
Proof.
  apply (get_table_rows_missing_table (fun _ => Ok []) (fun _ => other_page)
           (U "u") []).
  reflexivity.
Defined.

(** C9, as stated, fails twice: with no comparison table the exception is
    an [AttributeError], no [StructureError]; with a comparison table
    without rows the table is located and nothing is raised there. *)
Lemma get_table_rows_no_StructureError :
  find (U "table") [(U "id", U "comparison")] other_page = None
  /\ get_table_rows (fun _ => Ok []) (fun _ => other_page) (U "u")
     = Err AttributeError
  /\ get_table_rows (fun _ => Ok []) (fun _ => other_page) (U "u")
     <> Err StructureError
  /\ (exists table,
        find (U "table") [(U "id", U "comparison")] empty_page = Some table
        /\ find_all (U "tr") table = [])
  /\ get_table_rows (fun _ => Ok []) (fun _ => empty_page) (U "u") = Ok []
  /\ get_table_rows (fun _ => Ok []) (fun _ => empty_page) (U "u")
     <> Err StructureError.
Proof.
  split_and!.
  - vm_compute. reflexivity.
  - vm_compute. reflexivity.
  - vm_compute. discriminate.
  - eexists. split; vm_compute; reflexivity.
  - vm_compute. reflexivity.
  - vm_compute. discriminate.
Qed.

(** ** Further properties: the header row *)

Lemma comprehension_Forall2 {A B : Type} (f : A -> result B) (l : list A)
    (ys : list B) :
  comprehension f l = Ok ys <-> Forall2 (fun x y => f x = Ok y) l ys.
Proof.
  revert ys. induction l as [|x l IH]; intros ys; simpl.
  - split.
    + intros [= <-]. constructor.
    + intros ->%Forall2_nil_inv_l. done.
  - split.
    + intros (y & Hy & H)%bind_Ok. apply bind_Ok in H as (ys' & H & [= <-]).
      constructor; [done|]. by apply IH.
    + intros (y & ys' & Hy & H & ->)%Forall2_cons_inv_l.
      apply IH in H. by rewrite Hy, H.
Qed.

Lemma comprehension_Err_elem {A B : Type} (f : A -> result B) (l : list A)
    (e : exn) :
  comprehension f l = Err e -> exists x, x ∈ l /\ f x = Err e.
Proof.
  induction l as [|x l IH]; simpl; [discriminate|].
  destruct (f x) as [y|e'] eqn:E; simpl.
  - destruct (comprehension f l); simpl; [discriminate|]. intros [= <-].
    destruct (IH eq_refl) as (z & Hz & Hfz). exists z. split; [by right|done].
  - intros [= <-]. exists x. split; [by left|done].
Qed.

Lemma comprehension_fails {A B : Type} (f : A -> result B) (l : list A)
    (x : A) (e : exn) :
  x ∈ l -> f x = Err e -> exists e', comprehension f l = Err e'.
Proof.
  intros Hin Hx. induction l as [|y l IH]; [by apply elem_of_nil in Hin|].
  simpl. apply elem_of_cons in Hin as [->|Hin].
  - rewrite Hx. simpl. eauto.
  - destruct (f y); simpl; [|eauto].
    destruct (IH Hin) as [e' ->]. simpl. eauto.
Qed.

(** X1. [get_table_headers] returns a list exactly when there is a first
    row and every image of it has an alt text; the list then has one name
    for each image of that row, in document order, each the cleaned alt
    text of its image.  The rows after the first play no part. *)
Theorem get_table_headers_names (rows : list node) (names : list str) :
  get_table_headers rows = Ok names
  <-> exists first_row,
        rows !! 0 = Some first_row
        /\ Forall2
             (fun img nm =>
                exists alt,
                  tag_getitem img (U "alt") = Ok alt
                  /\ nm = get_platform_name alt)
             (find_all (U "img") first_row) names.
Proof.
  unfold get_table_headers. split.
  - intros (first_row & Hr%getitem_Ok & H)%bind_Ok.
    exists first_row. split; [done|].
    apply comprehension_Forall2 in H.
    eapply Forall2_impl; [exact H|].
    intros img nm (alt & Halt & [= <-])%bind_Ok. eauto.
  - intros (first_row & Hr & H). apply getitem_Ok in Hr. rewrite Hr.
    cbn [bind]. apply comprehension_Forall2.
    eapply Forall2_impl; [exact H|].
    intros img nm (alt & -> & ->). done.
Qed.

Lemma get_table_headers_names_witness :
  exists first_row,
    two_platform_rows !! 0 = Some first_row
    /\ Forall2
         (fun img nm =>
            exists alt,
              tag_getitem img (U "alt") = Ok alt
              /\ nm = get_platform_name alt)
         (find_all (U "img") first_row) [U "AWS"; U "Azure"].
Proof.
  apply (proj1 (get_table_headers_names two_platform_rows
                  [U "AWS"; U "Azure"])).
  vm_compute. reflexivity.
Defined.

(** X2. [get_table_headers] raises in two cases only: [IndexError] when
    there is no row at all, [KeyError] when an image of the first row has
    no alt text. *)
Theorem get_table_headers_raises (rows : list node) (e : exn) :
  get_table_headers rows = Err e
  <-> (rows = [] /\ e = IndexError)
      \/ (e = KeyError
          /\ exists first_row img,
               rows !! 0 = Some first_row
               /\ img ∈ find_all (U "img") first_row
               /\ tag_getitem img (U "alt") = Err KeyError).
Proof.
  unfold get_table_headers. split.
  - intros [H|(first_row & Hr%getitem_Ok & H)]%bind_Err.
    + apply getitem_Err in H as [-> Hlen]. left.
      destruct rows; [done|simpl in Hlen; lia].
    + apply comprehension_Err_elem in H as (img & Himg & H).
      apply bind_Err in H as [H|(alt & _ & H)]; [|discriminate].
      pose proof (tag_getitem_Err _ _ _ _ _ Himg H) as ->.
      right. split; [done|]. by exists first_row, img.
  - intros [[-> ->]|(-> & first_row & img & Hr & Himg & Halt)]; [done|].
    apply getitem_Ok in Hr. rewrite Hr. cbn [bind].
    destruct (comprehension_fails
      (fun img_tag => alt <- tag_getitem img_tag (U "alt") ;;
                      Ok (get_platform_name alt))
      _ img KeyError Himg) as [e' He'].
    { by rewrite Halt. }
    rewrite He'. f_equal. revert He'.
    apply (comprehension_Err (fun e0 => e0 = KeyError)).
    intros img' e1 Himg' [H|(alt & _ & H)]%bind_Err; [|discriminate].
    by apply (tag_getitem_Err _ _ _ _ _ Himg') in H.
Qed.

Lemma get_table_headers_raises_witness :
  get_table_headers [] = Err IndexError
  /\ get_table_headers [bare_img_header; aws_row] = Err KeyError.
Proof.
  split.
  - apply (proj2 (get_table_headers_raises [] IndexError)). by left.
  - apply (proj2 (get_table_headers_raises [bare_img_header; aws_row]
                    KeyError)).
    right. split; [done|].
    exists bare_img_header, (Tag (U "img") ∅ []).
    split_and!; [done| |done].
    vm_compute. apply list_elem_of_In. simpl. auto.
Defined.

(** ** Further properties: platform names *)

(** X3. [get_platform_name] only ever cuts an end off its argument: the
    result is the start of the argument, and when something is cut, the
    result has no newline and what is cut is whitespace, one of the words
    Icon, Log, Logo, and the end of the text or one last newline. *)
Theorem get_platform_name_prefix (alt_desc : str) :
  exists r,
    alt_desc = get_platform_name alt_desc ++ r
    /\ (r = [] \/ (one_line (get_platform_name alt_desc) /\ ends_name r)).
Proof.
  unfold get_platform_name. rewrite re_match_platform_name.
  pose proof (rep_any_greedy
    (fun r g => Re.bt word_tail r (<[1 := Re.consumed alt_desc r]> g)
                  (fun _ g' => Some g'))
    alt_desc (length alt_desc) 0 ∅ (le_n _)) as Hstar.
  destruct (Re.rep_loop _ _ _ _ _ _ _) as [m|].
  - destruct Hstar as (p & r & Hs & Hp & Hk & _).
    apply word_tail_Some in Hk as [Hr ->].
    exists r. rewrite Hs at 2 3. rewrite consumed_app. split; [done|].
    right. by split.
  - exists []. rewrite app_nil_r. split; [done|by left].
Qed.

(** X4. An alt text without any whitespace character comes back
    unchanged. *)
Theorem get_platform_name_no_space (alt_desc : str) :
  Forall (fun c => Re.is_space c = false) alt_desc ->
  get_platform_name alt_desc = alt_desc.
Proof.
  intros Hs. apply (proj2 get_platform_name_cut).
  intros p r -> _ (ws & w & tl & -> & Hne & Hws & _).
  destruct ws as [|c ws]; [done|].
  apply Forall_cons in Hws as [Hc _].
  apply Forall_app in Hs as [_ Hs]. simpl in Hs.
  apply Forall_cons in Hs as [Hc' _]. congruence.
Qed.

Lemma get_platform_name_no_space_witness :
  get_platform_name (U "AmazonIcon") = U "AmazonIcon".
Proof.
  apply get_platform_name_no_space.
  repeat first [apply Forall_nil_2 | apply Forall_cons_2; [done|]].
Defined.

(** ** Further properties: the extraction *)

(** X5. [get_table_data] returns a list exactly on the well formed
    tables: a header row whose images all have an alt text, data rows
    with two cells or more, and for every hyperlink with visible text in
    a platform column an href and a header image for its column.
    Hyperlinks without visible text are under no condition. *)
Theorem get_table_data_returns_iff (rows : list node) :
  (exists recs, get_table_data rows = Ok recs) <-> well_formed rows.
Proof.
  split.
  - intros [recs H]. by eapply get_table_data_returns_inv.
  - apply get_table_data_returns.
Qed.

Lemma get_table_data_returns_iff_witness :
  well_formed two_platform_rows.
Proof.
  apply (proj1 (get_table_data_returns_iff two_platform_rows)).
  eexists. vm_compute. reflexivity.
Defined.

(** X6. Whatever [get_table_data] raises is an [IndexError] (no row, a
    data row with fewer than two cells, a column without header image) or
    a [KeyError] (an image without alt text, a hyperlink without href);
    it raises nothing else. *)
Theorem get_table_data_raises_only (rows : list node) (e : exn) :
  get_table_data rows = Err e -> e = IndexError \/ e = KeyError.
Proof.
  unfold get_table_data. intros [H|(names & _ & H)]%bind_Err.
  - by apply get_table_headers_raw in H.
  - revert H. apply (for_each_Err raw_fault).
    intros acc row e' _. apply row_body_raw.
Qed.

Lemma get_table_data_raises_only_witness :
  IndexError = IndexError \/ IndexError = KeyError.
Proof.
  apply (get_table_data_raises_only [aws_header; short_row]).
  vm_compute. reflexivity.
Defined.

Lemma link_body_acc names cat svc ci acc a :
  link_body names cat svc ci acc a
  = (new <- link_body names cat svc ci [] a ;; Ok (acc ++ new)).
Proof.
  unfold link_body. destruct (truthy (text a)); cbn [bind].
  - destruct (getitem names ci); cbn [bind]; [|done].
    destruct (tag_getitem a (U "href")); cbn [bind]; done.
  - by rewrite app_nil_r.
Qed.

(** A loop that only appends gives, from any list, that list followed by
    what it gives from the empty list. *)
Lemma for_each_acc {A B : Type} (body : list B -> A -> result (list B))
    (l : list A) :
  (forall acc x, body acc x = (new <- body [] x ;; Ok (acc ++ new))) ->
  forall acc,
    for_each body l acc = (new <- for_each body l [] ;; Ok (acc ++ new)).
Proof.
  intros Hb. induction l as [|x l IH]; intros acc; simpl.
  - by rewrite app_nil_r.
  - rewrite (Hb acc x). destruct (body [] x) as [new|e]; simpl; [|done].
    rewrite (IH (acc ++ new)), (IH new).
    destruct (for_each body l []) as [new'|e]; simpl; [|done].
    by rewrite app_assoc.
Qed.

Lemma row_body_acc names acc row :
  row_body names acc row = (new <- row_body names [] row ;; Ok (acc ++ new)).
Proof.
  unfold row_body.
  destruct (getitem (find_all (U "td") row) 0) as [c0|e]; cbn [bind];
    [|done].
  destruct (getitem (find_all (U "td") row) 1) as [c1|e]; cbn [bind];
    [|done].
  apply for_each_acc. intros acc' ic. unfold column_body.
  apply for_each_acc. intros acc'' a. apply link_body_acc.
Qed.

(** X7. The records of a table are those of its first data rows followed
    by those of the rest: [get_table_data] on a header row and the rows
    [rows1 ++ rows2] gives what it gives on the header row with [rows1]
    and on the header row with [rows2], one list after the other, and
    raises what the first of the two raises. *)
Theorem get_table_data_app (header : node) (rows1 rows2 : list node) :
  get_table_data (header :: rows1 ++ rows2)
  = (recs1 <- get_table_data (header :: rows1) ;;
     recs2 <- get_table_data (header :: rows2) ;;
     Ok (recs1 ++ recs2)).
Proof.
  unfold get_table_data.
  replace (get_table_headers (header :: rows1 ++ rows2))
    with (get_table_headers (header :: rows1)) by done.
  replace (get_table_headers (header :: rows2))
    with (get_table_headers (header :: rows1)) by done.
  destruct (get_table_headers (header :: rows1)) as [names|e]; simpl;
    [|done].
  rewrite !drop_0, for_each_app.
  destruct (for_each (row_body names) rows1 []) as [recs1|e]; simpl; [|done].
  apply for_each_acc. intros acc row. apply row_body_acc.
Qed.

(** X8. Without an image in the header row no record can be built: when
    [get_table_data] returns on such a table, it returns the empty
    list. *)
Theorem get_table_data_no_image (header : node) (rows : list node)
    (recs : list Solution) :
  find_all (U "img") header = [] ->
  get_table_data (header :: rows) = Ok recs ->
  recs = [].
Proof.
  intros Himg (names & Hn & HF)%get_table_data_emits.
  unfold get_table_headers in Hn.
  change (getitem (header :: rows) 0) with (Ok header) in Hn.
  cbn [bind] in Hn. rewrite Himg in Hn.
  injection Hn as <-.
  destruct HF as [|rec p recs ps Hrec _]; [done|].
  destruct Hrec as (row & c0 & c1 & column & a & pl & d & H).
  by destruct H as (_ & _ & _ & _ & _ & _ & Hpl & _).
Qed.

Lemma get_table_data_no_image_witness :
  @nil Solution = [].
Proof.
  apply (get_table_data_no_image plain_header [label_row; label_row] []);
    vm_compute; reflexivity.
Defined.

(** ** Further properties: the line of a record *)

Lemma Solution_str_commas (self : Solution) :
  Solution_str self
  = category self ++ comma :: service self ++ comma :: platform self
    ++ comma :: name self ++ comma :: description self.
Proof. reflexivity. Qed.

Lemma app_comma_inj (a b x y : str) :
  comma_free a -> comma_free b ->
  a ++ comma :: x = b ++ comma :: y -> a = b /\ x = y.
Proof.
  intros Ha. revert b. induction Ha as [|c a Hc Ha IH]; intros b Hb Heq.
  - destruct Hb as [|c' b Hc' Hb]; simpl in Heq.
    + by injection Heq as ->.
    + injection Heq as <- _. done.
  - destruct Hb as [|c' b Hc' Hb]; simpl in Heq.
    + injection Heq as -> _. done.
    + injection Heq as -> Heq. destruct (IH b Hb Heq) as [-> ->]. done.
Qed.

(** X9. Records whose category, service, platform and name have no comma
    can be told apart by their lines: two such records that differ are
    written as different lines. *)
Theorem Solution_str_distinct (r1 r2 : Solution) :
  comma_free (category r1) -> comma_free (service r1) ->
  comma_free (platform r1) -> comma_free (name r1) ->
  comma_free (category r2) -> comma_free (service r2) ->
  comma_free (platform r2) -> comma_free (name r2) ->
  r1 <> r2 ->
  Solution_str r1 <> Solution_str r2.
Proof.
  intros Hc1 Hs1 Hp1 Hn1 Hc2 Hs2 Hp2 Hn2 Hne Heq. apply Hne.
  rewrite !Solution_str_commas in Heq.
  destruct r1 as [c1 s1 p1 n1 d1], r2 as [c2 s2 p2 n2 d2]; simpl in *.
  apply app_comma_inj in Heq as [-> Heq]; [|done..].
  apply app_comma_inj in Heq as [-> Heq]; [|done..].
  apply app_comma_inj in Heq as [-> Heq]; [|done..].
  apply app_comma_inj in Heq as [-> ->]; [|done..].
  done.
Qed.

Lemma Solution_str_distinct_witness :
  Solution_str
    {| category := U "Compute"; service := U "VM"; platform := U "AWS";
       name := U "EC2"; description := U "http://x?a=1,2" |}
  <> Solution_str
       {| category := U "Compute"; service := U "VM"; platform := U "AWS";
          name := U "EC2"; description := U "http://x?a=1" |}.
Proof.
  apply Solution_str_distinct.
  9: by intros [= H].
  all: unfold comma_free;
    repeat first [apply Forall_nil_2 | apply Forall_cons_2; [done|]].
Defined.

(** X10. Nothing is quoted or escaped: the line of a record has four
    commas more than its five fields have together, so a comma inside a
    field reads as one more separator. *)
Theorem Solution_str_comma_count (self : Solution) :
  length (filter (fun c => c = comma) (Solution_str self))
  = 4 + length (filter (fun c => c = comma) (category self))
      + length (filter (fun c => c = comma) (service self))
      + length (filter (fun c => c = comma) (platform self))
      + length (filter (fun c => c = comma) (name self))
      + length (filter (fun c => c = comma) (description self)).
Proof.
  rewrite Solution_str_commas.
  unfold str.
  repeat (rewrite filter_app, length_app, filter_cons_True by done;
          cbn [length]).
  lia.
Qed.

(** ** Further properties: the run *)

(** X11. When the extraction returns the records [solutions] and the
    run ends without exception, the output file holds the header line, a
    newline and the lines of the records with a newline between them,
    whatever it held before, and no other file has changed; for no
    record at all that text is the header line and the newline. *)
Theorem main_writes_csv (requests_get : str -> result (list Byte.byte))
    (bs : list Byte.byte -> node) (fs fs' : gmap str str)
    (solutions : list Solution) :
  get_all_solutions requests_get bs (U "https://comparecloud.in/")
  = Ok solutions ->
  main requests_get bs fs = (Ok tt, fs') ->
  fs' = <[U "./clouds.csv" := csv_text solutions]> fs
  /\ csv_text []
     = U "Category,Service,Platform,Solution,Description" ++ [newline].
Proof.
  intros H Hrun. split; [|reflexivity].
  unfold main in Hrun. rewrite H in Hrun.
  rewrite write_open_w, !write_insert in Hrun.
  injection Hrun as <-. unfold csv_text. f_equal.
Qed.

Lemma main_writes_csv_witness :
  ({[ U "./clouds.csv" := csv_text [] ]} : gmap str str)
  = <[U "./clouds.csv" := csv_text []]> {[ U "./clouds.csv" := U "old" ]}
  /\ csv_text []
     = U "Category,Service,Platform,Solution,Description" ++ [newline].
Proof.
  apply (main_writes_csv (fun _ => Ok []) (fun _ => empty_header_page)
           {[ U "./clouds.csv" := U "old" ]});
    vm_compute; reflexivity.
Defined.

(** X12. The run touches no file but [./clouds.csv]: every other path
    holds after the run what it held before, whether the run succeeds or
    raises. *)
Theorem main_other_files (requests_get : str -> result (list Byte.byte))
    (bs : list Byte.byte -> node) (fs : gmap str str) (path : str) :
  path <> U "./clouds.csv" ->
  (main requests_get bs fs).2 !! path = fs !! path.
Proof.
  intros Hpath. unfold main.
  destruct (get_all_solutions requests_get bs _) as [solutions|e]; [|done].
  rewrite write_open_w, !write_insert. simpl.
  by rewrite lookup_insert_ne.
Qed.

Lemma main_other_files_witness :
  (main (fun _ => Ok []) (fun _ => aws_page)
     {[ U "./notes.txt" := U "kept" ]}).2 !! U "./notes.txt"
  = ({[ U "./notes.txt" := U "kept" ]} : gmap str str) !! U "./notes.txt".
Proof.
  apply main_other_files. vm_compute. discriminate.
Defined.

(** X13. Running again on the same page changes nothing: a second run on
    the files the first run left gives the same outcome and the same
    files. *)
Theorem main_rerun (requests_get : str -> result (list Byte.byte))
    (bs : list Byte.byte -> node) (fs : gmap str str) :
  main requests_get bs (main requests_get bs fs).2
  = main requests_get bs fs.
Proof.
  unfold main.
  destruct (get_all_solutions requests_get bs _) as [solutions|e]; [|done].
  rewrite !write_open_w, !write_insert. simpl.
  by rewrite insert_insert_eq.
Qed.

Lemma matches_Tag (nm : str) (attrs : list (str * str)) (n : node) :
  matches nm attrs n = true ->
  exists attrs' contents,
    n = Tag nm attrs' contents
    /\ Forall (fun kv => attrs' !! kv.1 = Some kv.2) attrs.
Proof.
  destruct n as [s|nm' attrs' contents]; simpl; [discriminate|].
  intros [Hnm Hattrs]%andb_prop. apply bool_decide_eq_true in Hnm as ->.
  exists attrs', contents. split; [done|].
  apply Forall_forall. intros kv Hkv.
  rewrite forallb_forall in Hattrs.
  apply list_elem_of_In in Hkv. apply Hattrs in Hkv.
  by apply bool_decide_eq_true in Hkv.
Qed.

(** X15. The rows [get_table_rows] returns are the [tr] tags below one
    tag of the page, in document order; that tag is a [table] whose [id]
    is [comparison]. *)
Theorem get_table_rows_rows (requests_get : str -> result (list Byte.byte))
    (bs : list Byte.byte -> node) (webpage : str) (rows : list node) :
  get_table_rows requests_get bs webpage = Ok rows ->
  exists page attrs contents,
    requests_get webpage = Ok page
    /\ Tag (U "table") attrs contents ∈ descendants (bs page)
    /\ attrs !! U "id" = Some (U "comparison")
    /\ rows = filter (fun d => matches (U "tr") [] d = true)
                (descendants (Tag (U "table") attrs contents))
    /\ Forall (tag_named (U "tr")) rows.
Proof.
  unfold get_table_rows. intros (page & Hpage & H)%bind_Ok.
  destruct (find _ _ _) as [table|] eqn:Hfind; [|discriminate].
  injection H as <-. unfold find in Hfind.
  destruct (filter _ (descendants (bs page))) as [|t ts] eqn:Hf;
    [discriminate|].
  injection Hfind as ->.
  assert (table ∈ filter
            (fun d => matches (U "table") [(U "id", U "comparison")] d = true)
            (descendants (bs page))) as Hin by (rewrite Hf; by left).
  apply list_elem_of_filter in Hin as [Hm Hin].
  apply matches_Tag in Hm as (attrs & contents & -> & Hid).
  apply Forall_cons in Hid as [Hid _]. simpl in Hid.
  exists page, attrs, contents. split_and!; [done..|].
  apply Forall_forall. intros row [Hrow _]%list_elem_of_filter.
  apply matches_Tag in Hrow as (a & c & -> & _). by exists a, c.
Qed.

Lemma get_table_rows_rows_witness :
  exists page attrs contents,
    (fun _ : str => @Ok (list Byte.byte) []) (U "u") = Ok page
    /\ Tag (U "table") attrs contents
       ∈ descendants ((fun _ : list Byte.byte => aws_page) page)
    /\ attrs !! U "id" = Some (U "comparison")
    /\ [aws_header; aws_row]
       = filter (fun d => matches (U "tr") [] d = true)
           (descendants (Tag (U "table") attrs contents))
    /\ Forall (tag_named (U "tr")) [aws_header; aws_row].
Proof.
  apply (get_table_rows_rows (fun _ => Ok []) (fun _ => aws_page) (U "u")).
  vm_compute. reflexivity.
Defined.

(** ** Further properties: the lines of the file *)

Lemma join_newlines (lines : list str) :
  Forall one_line lines ->
  length (filter (fun c => c = newline) (join [newline] lines))
  = pred (length lines).
Proof.
  unfold str.
  induction 1 as [|l lines Hl Hlines IH]; [done|].
  assert (filter (fun c => c = newline) l = []) as Hnil.
  { clear -Hl. induction Hl as [|c l Hc _ IHl]; [done|].
    by rewrite filter_cons_False. }
  destruct lines as [|l' lines]; simpl in *.
  - by rewrite Hnil.
  - rewrite filter_app, Hnil, filter_cons_True by done. simpl.
    rewrite IH. done.
Qed.

(** X16. When no field of the records has a newline, the text written
    for one record or more has as many newlines as records: the header
    line and one line for each record, the last one not ended by a
    newline. *)
Theorem csv_text_newlines (solutions : list Solution) :
  Forall (fun r => one_line (Solution_str r)) solutions ->
  solutions <> [] ->
  length (filter (fun c => c = newline) (csv_text solutions))
  = length solutions
  /\ last (csv_text solutions) <> Some newline.
Proof.
  intros Hlines Hne. split.
  - unfold csv_text.
    pose proof (join_newlines (map Solution_str solutions)) as Hj.
    rewrite length_map in Hj. unfold str in *.
    rewrite filter_app.
    replace (filter (fun c => c = newline)
               (U "Category,Service,Platform,Solution,Description"))
      with (@nil N) by (vm_compute; reflexivity).
    rewrite app_nil_l, filter_app, length_app, Hj.
    + destruct solutions; [done|]. reflexivity.
    + by apply Forall_fmap.
  - destruct solutions as [|r solutions _] using rev_ind; [done|].
    apply Forall_app in Hlines as [_ Hr]. apply Forall_cons in Hr as [Hr _].
    assert (exists pre, join [newline] (map Solution_str (solutions ++ [r]))
                        = pre ++ Solution_str r) as [pre Hpre].
    { rewrite map_app. simpl. clear.
      induction (map Solution_str solutions) as [|l ls [pre IH]].
      - by exists [].
      - destruct ls as [|l' ls]; simpl in *.
        + exists (l ++ [newline]). by rewrite <- app_assoc.
        + rewrite IH. exists (l ++ newline :: pre).
          by rewrite <- app_assoc. }
    assert (exists line c, Solution_str r = line ++ [c] /\ c <> newline)
      as (line & c & Hline & Hc).
    { destruct (Solution_str r) as [|c line _] eqn:E using rev_ind.
      - rewrite Solution_str_commas in E. by destruct (category r).
      - exists line, c. split; [done|].
        apply Forall_app in Hr as [_ Hr]. by apply Forall_cons in Hr as [? _]. }
    unfold csv_text. rewrite Hpre, Hline.
    replace (U "Category,Service,Platform,Solution,Description"
             ++ [newline] ++ pre ++ line ++ [c])
      with ((U "Category,Service,Platform,Solution,Description"
             ++ [newline] ++ pre ++ line) ++ [c])
      by (by rewrite <- !app_assoc).
    rewrite last_snoc. by intros [= ->].
Qed.

Lemma csv_text_newlines_witness :
  length
    (filter (fun c => c = newline)
       (csv_text
          [{| category := U "Compute"; service := U "VM";
              platform := U "AWS"; name := U "EC2";
              description := U "http://ec2" |};
           {| category := U "Storage"; service := U "Object";
              platform := U "AWS"; name := U "S3";
              description := U "http://s3" |}]))
  = 2
  /\ last
       (csv_text
          [{| category := U "Compute"; service := U "VM";
              platform := U "AWS"; name := U "EC2";
              description := U "http://ec2" |};
           {| category := U "Storage"; service := U "Object";
              platform := U "AWS"; name := U "S3";
              description := U "http://s3" |}])
     <> Some newline.
Proof.
  apply (csv_text_newlines
    [{| category := U "Compute"; service := U "VM";
        platform := U "AWS"; name := U "EC2";
        description := U "http://ec2" |};
     {| category := U "Storage"; service := U "Object";
        platform := U "AWS"; name := U "S3";
        description := U "http://s3" |}]); [|done].
  repeat first
    [ apply Forall_nil_2
    | apply Forall_cons_2;
      [unfold one_line; rewrite Solution_str_commas; cbn;
       repeat first [apply Forall_nil_2 | apply Forall_cons_2; [done|]]|] ].
Defined.

(** ** Further properties: columns and cells out of the expected shape *)

(** X17. A hyperlink with visible text in a platform column that has no
    header image (its index reaches the number of images of the header
    row) makes [get_table_data] raise. *)
Theorem excess_column_raises (header : node) (rows : list node)
    (row column a : node) (ci : nat) :
  row ∈ rows ->
  platform_columns row !! ci = Some column ->
  a ∈ links column ->
  has_text a = true ->
  length (find_all (U "img") header) <= ci ->
  exists e,
    get_table_data (header :: rows) = Err e
    /\ (e = IndexError \/ e = KeyError).
Proof.
  intros Hrow Hcol Ha Htext Hci.
  destruct (get_table_data (header :: rows)) as [recs|e] eqn:E.
  - apply get_table_data_returns_inv in E as (h & [= <-] & _ & Hrows).
    change (data_rows (header :: rows)) with rows in Hrows.
    rewrite Forall_forall in Hrows.
    destruct (Hrows row Hrow) as [_ Hlinks].
    destruct (Hlinks ci column a Hcol Ha Htext) as [Hlt _]. lia.
  - exists e. split; [done|]. by apply get_table_data_raw in E.
Qed.

Lemma excess_column_raises_witness :
  exists e,
    get_table_data [plain_header; aws_row] = Err e
    /\ (e = IndexError \/ e = KeyError).
Proof.
  apply (excess_column_raises plain_header [aws_row] aws_row
           (Tag (U "td") ∅ [a_href "http://x" "EC2"])
           (a_href "http://x" "EC2") 0).
  - by left.
  - vm_compute. reflexivity.
  - vm_compute. by left.
  - vm_compute. reflexivity.
  - vm_compute. lia.
Defined.

(** What is below a node below [n] is below [n]. *)
Lemma descendants_trans (n x y : node) :
  x ∈ descendants n -> y ∈ descendants x -> y ∈ descendants n.
Proof.
  revert x y. induction n as [s|nm attrs contents IH] using node_induction;
    intros x y Hx Hy.
  - by apply elem_of_nil in Hx.
  - induction IH as [|c l Hc _ IHl]; [by apply elem_of_nil in Hx|].
    rewrite descendants_Tag_cons in Hx |- *.
    apply elem_of_cons in Hx as [->|Hx].
    + right. apply elem_of_app. by left.
    + right. apply elem_of_app.
      apply elem_of_app in Hx as [Hx|Hx]; [left|right].
      * by apply (Hc x).
      * by apply IHl.
Qed.

Lemma find_all_nested (nm nm' : str) (n x y : node) :
  x ∈ find_all nm n -> y ∈ find_all nm' x -> y ∈ find_all nm' n.
Proof.
  unfold find_all. rewrite !list_elem_of_filter.
  intros [_ Hx] [Hm Hy]. split; [done|]. by eapply descendants_trans.
Qed.

(** X18. The cells of a row and the hyperlinks of a cell are searched at
    any depth: a cell nested in a cell of the row is a cell of the row
    too, and a hyperlink of the nested cell is a hyperlink of both
    cells. *)
Theorem nested_cell_links (row cell inner a : node) :
  cell ∈ cells row ->
  inner ∈ find_all (U "td") cell ->
  a ∈ links inner ->
  inner ∈ cells row /\ a ∈ links cell.
Proof.
  intros Hcell Hinner Ha. split.
  - by apply (find_all_nested (U "td") (U "td") row cell).
  - by apply (find_all_nested (U "td") (U "a") cell inner).
Qed.

Lemma nested_cell_links_witness :
  Tag (U "td") ∅ [a_href "http://x" "EC2"]
  ∈ cells (Tag (U "tr") ∅
             [td "Compute"; td "VM";
              Tag (U "td") ∅ [Tag (U "td") ∅ [a_href "http://x" "EC2"]]])
  /\ a_href "http://x" "EC2"
     ∈ links (Tag (U "td") ∅ [Tag (U "td") ∅ [a_href "http://x" "EC2"]]).
Proof.
  apply (nested_cell_links _
           (Tag (U "td") ∅ [Tag (U "td") ∅ [a_href "http://x" "EC2"]])).
  - vm_compute. apply list_elem_of_In. simpl. auto.
  - vm_compute. by left.
  - vm_compute. by left.
Defined.
